(** * passcards: the local encrypted item store (src/lib/local_store.ts)

    A shallow embedding of [Store] and of the properties its specification
    states.  Promises are modelled in a state-and-error monad: a [.then]
    chain is a sequence of binds, a rejection (or a [throw] in a callback)
    is [Err] and skips the rest of the chain, and the effects a chain had
    before it was rejected stay in the state. *)

From Stdlib Require Import ZArith Ascii String.
From stdpp Require Import base strings list gmap fin_maps.

Open Scope string_scope.
Open Scope list_scope.

(** ** Errors

    The store raises plain [Error] objects that differ by message; the
    constructors name them after the specification's taxonomy. *)
Inductive Error : Type :=
| Locked             (* 'Unable to fetch overview key. Vault may be locked?' *)
| NoKeys             (* 'No encryption keys have been saved' *)
| NotFound (uuid : string)            (* 'No such item ' + uuid *)
| NotImplemented     (* 'getRawDecryptedData() is not implemented' *)
| TypeError          (* the runtime's error for a property read on undefined *)
| SyntaxError        (* thrown by JSON.parse *)
| InvalidPassword    (* raised by the key-derivation collaborator *)
| CryptoFailure      (* a rejection of the key agent's encrypt or decrypt *)
| StorageFailure (key : string).      (* a rejected write of the database *)

Inductive Result (A : Type) : Type :=
| Ok (a : A)
| Err (e : Error).
Arguments Ok {A} a.
Arguments Err {A} e.

Definition isOk {A} (r : Result A) : bool :=
  match r with Ok _ => true | Err _ => false end.

(** ** Data model *)

(** interface EncryptedContent *)
Record EncryptedContent := { data : string }.

(** A value of the 'item-store' object store: the encrypted index is stored
    as a string, an item's content as an [EncryptedContent] object. *)
Inductive ItemStoreValue :=
| VString (s : string)
| VContent (c : EncryptedContent).

(** key_agent.Key is declared outside src; the specification gives it an
    identifier and the (password-encrypted) key material. *)
Record Key := { identifier : string; keyData : string }.

(** An element of the list [key_agent.decryptKeys] returns: the store reads
    its fields [id] and [key]. *)
Record DecryptedKey := { id : string; key : string }.

(** item_store.ListItemsOptions; an omitted field is [None]. *)
Record ListItemsOptions := { includeTombstones : option bool }.

(** [opts = {}], the default argument of listItems. *)
Definition noOptions : ListItemsOptions := {| includeTombstones := None |}.

(** Truthiness of an optional boolean, as [||] and [if] test it. *)
Definition truthy (b : option bool) : bool := default false b.

(** Truthiness of a string: the empty string is falsy. *)
Definition truthyString (s : string) : bool :=
  match s with EmptyString => false | _ => true end.

Definition KEY_ID_PREFIX : string := "key/".

(** 'content/' + uuid *)
Definition contentKey (uuid : string) : string := "content/" +:+ uuid.

Definition indexKey : string := "index".

Section Store.

(** item_store.ItemContent and item_store.ItemOpenContents are declared
    outside src and never inspected by the store. *)
Context {ItemContent OpenContents : Type}.

(** interface ItemOverview; the timestamps are milliseconds since the epoch. *)
Record ItemOverview := {
  o_title : string;
  o_updatedAt : Z;
  o_createdAt : Z;
  o_trashed : bool;
  o_typeName : string;
  o_openContents : OpenContents;
  o_locations : list string;
  o_account : string
}.

(** item_store.Item, with the fields the store reads and writes.  A [Date]
    is modelled by its time value, so [new Date(t).getTime()] is [t].
    [content] is the in-memory content, [None] while it is not loaded. *)
Record Item := {
  uuid : string;
  title : string;
  updatedAt : Z;
  createdAt : Z;
  trashed : bool;
  typeName : string;
  openContents : OpenContents;
  locations : list string;
  account : string;
  content : option ItemContent
}.

(** interface OverviewMap: an object used as a map from uuid to overview.
    The order in which the keys of the object are enumerated is not
    modelled: a map lists its entries in an order of its own. *)
Abbreviation OverviewMap := (gmap string ItemOverview).

(** What the store publishes and what it asks of its collaborators, in the
    order it happens. *)
Inductive Event :=
| AgentAddKey (keyId : string)        (* keyAgent.addKey(id, key) *)
| ItemStoreSet (dbKey : string)       (* itemStore.set(dbKey, _) completed *)
| KeyStoreSet (dbKey : string)        (* keyStore.set(dbKey, _) completed *)
| PublishUnlock                       (* onUnlock.publish(null) *)
| PublishItemUpdated (item : Item).   (* onItemUpdated.publish(item) *)

(** The store with its collaborators' state.

    - [keyStore] holds the 'key/...' entries of the 'key-store' object store
      and [hint] its 'hint' entry, which is a plain string and has no
      'key/' prefix;
    - [itemStore] is the 'item-store' object store;
    - [writeFaults] are the item-store keys whose [set] the database
      rejects (the specification's StorageFailure);
    - [agentKeys] is the key agent's memory, by key id, in insertion order;
    - [trace] is the log of events, latest last. *)
Record State := {
  keyStore : gmap string Key;
  hint : option string;
  itemStore : gmap string ItemStoreValue;
  writeFaults : gset string;
  agentKeys : list (string * string);
  trace : list Event
}.

(** The functions of other modules that the store calls and that src does
    not contain. *)
Record Collaborators := {
  (** item_store.Item.isTombstone() *)
  isTombstone : Item -> bool;
  (** item_store.Item.updateTimestamps(), which reads the clock *)
  updateTimestamps : Item -> Item;
  (** item_store.Item.updateOverviewFromContent(content) *)
  updateOverviewFromContent : Item -> ItemContent -> Item;
  (** key_agent.decryptKeys(keys, pwd) *)
  decryptKeys : list Key -> string -> Result (list DecryptedKey);
  (** keyAgent.encrypt(key, plaintext, AES128_OpenSSLKey) *)
  agentEncrypt : string -> string -> Result string;
  (** keyAgent.decrypt(key, ciphertext, AES128_OpenSSLKey) *)
  agentDecrypt : string -> string -> Result string;
  (** JSON.stringify on an OverviewMap *)
  stringifyIndex : OverviewMap -> string;
  (** JSON.parse on the text of the index; [None] is a falsy value *)
  parseIndex : string -> Result (option OverviewMap);
  (** JSON.stringify on an ItemContent *)
  stringifyContent : ItemContent -> string;
  (** underscore.extend(new ItemContent(), JSON.parse(text)) *)
  parseContent : string -> Result ItemContent
}.

Context (env : Collaborators).

(** ** The promise monad *)

Definition M (A : Type) : Type := State -> Result A * State.

Definition ret {A} (a : A) : M A := fun st => (Ok a, st).

Definition throw {A} (e : Error) : M A := fun st => (Err e, st).

Definition bind {A B} (m : M A) (k : A -> M B) : M B :=
  fun st =>
    match m st with
    | (Ok a, st') => k a st'
    | (Err e, st') => (Err e, st')
    end.

Definition lift {A} (r : Result A) : M A := fun st => (r, st).

Definition gets {A} (f : State -> A) : M A := fun st => (Ok (f st), st).

Definition modify (f : State -> State) : M unit := fun st => (Ok tt, f st).

(** Runs [m] to its end and hands its outcome over instead of propagating
    a rejection: a promise that was started and is awaited later. *)
Definition settle {A} (m : M A) : M (Result A) :=
  fun st => let '(r, st') := m st in (Ok r, st').

(** Q.all on two promises, the result erased (asyncutil.eraseResult): it
    resolves when both resolved and rejects when one rejected.  When both
    reject, the rejection delivered first wins; the model takes the first
    of the array. *)
Definition Q_all2 (r1 r2 : Result unit) : Result unit :=
  match r1, r2 with
  | Ok _, Ok _ => Ok tt
  | Err e, _ => Err e
  | Ok _, Err e => Err e
  end.

(** ** State updates *)

Definition with_itemStore (f : gmap string ItemStoreValue -> gmap string ItemStoreValue)
    (st : State) : State :=
  {| keyStore := keyStore st; hint := hint st; itemStore := f (itemStore st);
     writeFaults := writeFaults st; agentKeys := agentKeys st; trace := trace st |}.

Definition with_keyStore (f : gmap string Key -> gmap string Key) (st : State) : State :=
  {| keyStore := f (keyStore st); hint := hint st; itemStore := itemStore st;
     writeFaults := writeFaults st; agentKeys := agentKeys st; trace := trace st |}.

Definition with_hint (h : option string) (st : State) : State :=
  {| keyStore := keyStore st; hint := h; itemStore := itemStore st;
     writeFaults := writeFaults st; agentKeys := agentKeys st; trace := trace st |}.

Definition with_agentKeys (f : list (string * string) -> list (string * string))
    (st : State) : State :=
  {| keyStore := keyStore st; hint := hint st; itemStore := itemStore st;
     writeFaults := writeFaults st; agentKeys := f (agentKeys st); trace := trace st |}.

Definition log (e : Event) (st : State) : State :=
  {| keyStore := keyStore st; hint := hint st; itemStore := itemStore st;
     writeFaults := writeFaults st; agentKeys := agentKeys st; trace := trace st ++ [e] |}.

(** The state after a write of [v] under [k] in the item store. *)
Definition written (k : string) (v : ItemStoreValue) (st : State) : State :=
  log (ItemStoreSet k) (with_itemStore <[k := v]> st).

(** ** The collaborators' operations *)

(** itemStore.get(key): resolves with the value, or with undefined. *)
Definition itemStore_get (k : string) : M (option ItemStoreValue) :=
  gets (fun st => itemStore st !! k).

(** itemStore.set(key, value): overwrites the entry, or is rejected. *)
Definition itemStore_set (k : string) (v : ItemStoreValue) : M unit :=
  fun st =>
    if decide (k ∈ writeFaults st) then (Err (StorageFailure k), st)
    else (Ok tt, written k v st).

(** keyStore.list(prefix): the keys that start with [prefix]. *)
Definition keyStore_list (prefix : string) : M (list string) :=
  gets (fun st => List.filter (String.prefix prefix) (map_to_list (keyStore st)).*1).

Definition keyStore_set (k : string) (v : Key) : M unit :=
  modify (fun st => log (KeyStoreSet k) (with_keyStore <[k := v]> st)).

(** Assignment to a property of an object whose properties are listed in
    insertion order: an existing id keeps its place. *)
Fixpoint setKey (i k : string) (ks : list (string * string)) : list (string * string) :=
  match ks with
  | [] => [(i, k)]
  | (i', k') :: rest =>
      if String.eqb i' i then (i, k) :: rest else (i', k') :: setKey i k rest
  end.

(** Modelled from the spec: the key agent is an interface of key_agent,
    which is not in src; by its contract it "holds decrypted encryption
    keys in memory" and offers [listKeys() -> ids] and
    [addKey(id, material)]. *)
Definition agent_addKey (i k : string) : M unit :=
  modify (fun st => log (AgentAddKey i) (with_agentKeys (setKey i k) st)).

Definition agent_listKeys : M (list string) :=
  gets (fun st => (agentKeys st).*1).

Definition publish (e : Event) : M unit := modify (log e).

(** Runs [f] on every element, in order (forEach, or Q.all over promises
    that are started in order). *)
Fixpoint forEach {A} (f : A -> M unit) (l : list A) : M unit :=
  match l with
  | [] => ret tt
  | x :: rest => bind (f x) (fun _ => forEach f rest)
  end.

Notation "'await' x <- m 'in' k" := (bind m (fun x => k))
  (at level 10, x name, m at level 100, k at level 200).
Notation "'await_' m 'in' k" := (bind m (fun _ => k))
  (at level 10, m at level 100, k at level 200).

(** ** The store (class Store) *)

(** private overviewKey(): the key used to encrypt item overview data. *)
Definition overviewKey : M string :=
  await keyIds <- agent_listKeys in
  match keyIds with
  | [] => throw Locked
  | k :: _ => ret k
  end.

(** private keyForItem(item) *)
Definition keyForItem (item : Item) : M string := overviewKey.

(** private itemFromOverview(uuid, overview): a new item of this store,
    its content not loaded. *)
Definition itemFromOverview (u : string) (overview : ItemOverview) : Item :=
  {| uuid := u;
     title := o_title overview;
     updatedAt := o_updatedAt overview;
     createdAt := o_createdAt overview;
     trashed := o_trashed overview;
     typeName := o_typeName overview;
     openContents := o_openContents overview;
     locations := o_locations overview;
     account := o_account overview;
     content := None |}.

(** private overviewFromItem(item) *)
Definition overviewFromItem (item : Item) : ItemOverview :=
  {| o_title := title item;
     o_updatedAt := updatedAt item;
     o_createdAt := createdAt item;
     o_trashed := trashed item;
     o_typeName := typeName item;
     o_openContents := openContents item;
     o_locations := locations item;
     o_account := account item |}.

(** The second callback of listItems: the index is decrypted when the
    database has one ([if (encryptedItemIndex)]), and is [null] otherwise. *)
Definition decryptIndex (k : string) (encryptedItemIndex : option ItemStoreValue)
    : Result (option string) :=
  match encryptedItemIndex with
  | Some (VString s) =>
      if truthyString s then
        match agentDecrypt env k s with
        | Ok d => Ok (Some d)
        | Err e => Err e
        end
      else Ok None
  | Some (VContent _) => Err TypeError    (* not a string: never written there *)
  | None => Ok None
  end.

(** [<OverviewMap>JSON.parse(decryptedItemIndex) || {}]: [JSON.parse(null)]
    is [null], and a falsy value gives the empty map. *)
Definition parseOverviewMap (decryptedItemIndex : option string) : Result OverviewMap :=
  match decryptedItemIndex with
  | Some d =>
      match parseIndex env d with
      | Ok parsed => Ok (default ∅ parsed)
      | Err e => Err e
      end
  | None => Ok ∅
  end.

(** The items of an overview map, in the order its keys are enumerated,
    tombstones left out unless asked for. *)
Definition itemsOfIndex (opts : ListItemsOptions) (overviewMap : OverviewMap)
    : list Item :=
  List.filter
    (fun item => negb (isTombstone env item) || truthy (includeTombstones opts))
    (map (fun kv => itemFromOverview kv.1 kv.2) (map_to_list overviewMap)).

(** listItems(opts = {}) *)
Definition listItems (opts : ListItemsOptions) : M (list Item) :=
  await k <- overviewKey in
  await encryptedItemIndex <- itemStore_get indexKey in
  await decryptedItemIndex <- lift (decryptIndex k encryptedItemIndex) in
  await overviewMap <- lift (parseOverviewMap decryptedItemIndex) in
  ret (itemsOfIndex opts overviewMap).

(** The index the database holds, as listItems reads it under key [k]. *)
Definition storedIndex (k : string) (st : State) : Result OverviewMap :=
  match decryptIndex k (itemStore st !! indexKey) with
  | Ok decryptedItemIndex => parseOverviewMap decryptedItemIndex
  | Err e => Err e
  end.

(** Modelled from the spec: collectionutil.listToMap is not in src;
    updateIndex uses it on the listed items to "build a uuid-keyed map",
    here with a later item replacing an earlier one of the same uuid. *)
Definition listToMap (items : list Item) : gmap string Item :=
  foldl (fun m item => <[uuid item := item]> m) ∅ items.

(** The map updateIndex serializes: the listed items by uuid, the updated
    items set over them, each projected to its overview. *)
Definition mergeIndex (items updatedItems : list Item) : OverviewMap :=
  let itemMap := listToMap items in
  let itemMap := foldl (fun m item => <[uuid item := item]> m) itemMap updatedItems in
  overviewFromItem <$> itemMap.

(** private updateIndex(updatedItems) *)
Definition updateIndex (updatedItems : list Item) : M unit :=
  await items <- listItems {| includeTombstones := Some true |} in
  let overviewMap := mergeIndex items updatedItems in
  await k <- overviewKey in
  await encrypted <- lift (agentEncrypt env k (stringifyIndex env overviewMap)) in
  itemStore_set indexKey (VString encrypted).

(** loadItem(uuid) *)
Definition loadItem (u : string) : M Item :=
  await items <- listItems noOptions in
  let matches := List.filter (fun item => String.eqb (uuid item) u) items in
  match matches with
  | m :: _ => ret m
  | [] => throw (NotFound u)
  end.

(** getContent(item) *)
Definition getContent (item : Item) : M ItemContent :=
  await k <- keyForItem item in
  await encryptedContent <- itemStore_get (contentKey (uuid item)) in
  await decrypted <-
    match encryptedContent with
    | None => throw TypeError            (* undefined.data *)
    | Some (VContent c) => lift (agentDecrypt env k (data c))
    | Some (VString _) => throw TypeError  (* no data: never written there *)
    end in
  lift (parseContent env decrypted).

(** Modelled from the spec: item_store.Item.getContent() is not in src; an
    item has "a lazily-fetched encrypted content payload", so the content
    it holds is returned, and fetched from the store when it holds none. *)
Definition Item_getContent (item : Item) : M ItemContent :=
  match content item with
  | Some c => ret c
  | None => getContent item
  end.

(** Modelled from the spec: indexUpdateQueue.push(item) on a queue at rest
    ("if no flush is currently running, start one with the current pending
    list"): the flush is updateIndex on this item alone, and the promise
    follows that flush. *)
Definition indexUpdateQueue_push (item : Item) : M unit := updateIndex [item].

(** The start of saveItem, up to the callback that pushes the item: the
    item as it is pushed, with the encrypted content. *)
Definition saveItem_prepare (item : Item) : M (Item * string) :=
  let item := updateTimestamps env item in
  await k <- keyForItem item in
  await c <- Item_getContent item in
  let item := updateOverviewFromContent env item c in
  await contentData <- lift (agentEncrypt env k (stringifyContent env c)) in
  ret (item, contentData).

(** [itemStore.set('content/' + item.uuid, encryptedContent)] *)
Definition saveItem_content (item : Item) (contentData : string) : M unit :=
  let encryptedContent := {| data := contentData |} in
  itemStore_set (contentKey (uuid item)) (VContent encryptedContent).

(** saveItem(item), called while nothing else runs.  The content write is
    issued in the callback that pushes the item, while the flush first
    lists the items; both run to their end whatever the other does, and
    Q.all joins them. *)
Definition saveItem (item : Item) : M unit :=
  await prepared <- saveItem_prepare item in
  let item := prepared.1 in
  await contentSaved <- settle (saveItem_content item prepared.2) in
  await overviewSaved <- settle (indexUpdateQueue_push item) in
  await_ lift (Q_all2 overviewSaved contentSaved) in
  publish (PublishItemUpdated item).

(** getRawDecryptedData(item) *)
Definition getRawDecryptedData (item : Item) : M string := throw NotImplemented.

(** listKeys(): the entries of the key store under the 'key/' prefix. *)
Definition listKeys : M (list Key) :=
  await keyIds <- keyStore_list KEY_ID_PREFIX in
  gets (fun st => omap (fun i => keyStore st !! i) keyIds).

(** The keys listKeys resolves with. *)
Definition persistedKeys (st : State) : list Key :=
  omap (fun i => keyStore st !! i)
    (List.filter (String.prefix KEY_ID_PREFIX) (map_to_list (keyStore st)).*1).

(** saveKeys(keys, hint) *)
Definition saveKeys (keys : list Key) (h : string) : M unit :=
  await_ forEach (fun k => keyStore_set (KEY_ID_PREFIX +:+ identifier k) k) keys in
  modify (fun st => log (KeyStoreSet "hint") (with_hint (Some h) st)).

(** passwordHint() *)
Definition passwordHint : M (option string) := gets hint.

(** unlock(pwd) *)
Definition unlock (pwd : string) : M unit :=
  await keys <- listKeys in
  await keys <-
    (if Nat.eqb (length keys) 0 then throw NoKeys
     else lift (decryptKeys env keys pwd)) in
  await_ forEach (fun k => agent_addKey (id k) (key k)) keys in
  publish PublishUnlock.

(** clear(): deletes the database and creates its two stores again. *)
Definition clear : M unit :=
  modify (fun st => with_hint None (with_keyStore (fun _ => ∅) (with_itemStore (fun _ => ∅) st))).

(** ** Definitions the specification is stated with *)

(** The last item of a batch that has the uuid [u]. *)
Fixpoint lastWithUuid (u : string) (items : list Item) : option Item :=
  match items with
  | [] => None
  | item :: rest =>
      match lastWithUuid u rest with
      | Some later => Some later
      | None => if String.eqb (uuid item) u then Some item else None
      end
  end.

(** The specification's step (2) and (3) of updateIndex, on overviews: the
    batch's items overlaid onto the existing set by uuid, one after the
    other. *)
Definition overlay (existing : OverviewMap) (batch : list Item) : OverviewMap :=
  foldl (fun acc item => <[uuid item := overviewFromItem item]> acc) existing batch.

(** listItems({includeTombstones: true}) *)
Definition withTombstones : ListItemsOptions := {| includeTombstones := Some true |}.

(** The key agent's memory after [addKey] on each of [keys], in order. *)
Definition addKeys (keys : list DecryptedKey) (held : list (string * string))
    : list (string * string) :=
  foldl (fun acc k => setKey (id k) (key k) acc) held keys.

(** The key the agent holds under an id. *)
Fixpoint lookupKey (i : string) (held : list (string * string)) : option string :=
  match held with
  | [] => None
  | (i', k) :: rest => if String.eqb i' i then Some k else lookupKey i rest
  end.

(** ** Concurrent saves

    Modelled from the spec: collectionutil.BatchedUpdateQueue is not in src.
    "Algorithm: maintain a pending list; if no flush is currently running,
    start one with the current pending list and clear it; if a flush is
    running, items pushed during it join a next pending batch, triggering a
    follow-up flush when the current one completes." *)
Record Queue := {
  pending : list Item;
  running : option (list Item)
}.

Definition idleQueue : Queue := {| pending := []; running := None |}.

(** Modelled from the spec: BatchedUpdateQueue.push(item). *)
Definition queuePush (item : Item) (q : Queue) : Queue :=
  let p := pending q ++ [item] in
  match running q with
  | None => {| pending := []; running := Some p |}
  | Some batch => {| pending := p; running := Some batch |}
  end.

(** Modelled from the spec: the queue when its running flush completes. *)
Definition queueFlushed (q : Queue) : Queue :=
  match pending q with
  | [] => idleQueue
  | p => {| pending := []; running := Some p |}
  end.

(** The store while saveItem calls overlap: the flushes the queue has made
    with their outcomes, and the pushed items with the outcomes of their
    content writes. *)
Record System := {
  store : State;
  queue : Queue;
  flushes : list (list Item * Result unit);
  pushes : list (Item * Result unit)
}.

Definition initialSystem (st : State) : System :=
  {| store := st; queue := idleQueue; flushes := []; pushes := [] |}.

(** What happens, one callback at a time: a call of saveItem reaches its
    push, or the running flush completes.  Between the start and the end of
    a flush no other callback touches the index or the key agent, so the
    flush takes effect where it completes. *)
Inductive Step :=
| Save (item : Item)
| Flushed.

(** The join of saveItem for an item of a completed flush: the outcome of
    the flush and the outcome of the item's content write. *)
Definition bothSaved (overviewSaved : Result unit)
    (contentResults : list (Item * Result unit)) (item : Item) : bool :=
  isOk overviewSaved &&
  existsb (fun p => String.eqb (uuid p.1) (uuid item) && isOk p.2) contentResults.

(** The last callback of saveItem, for the items of a completed flush:
    those whose two writes succeeded are published. *)
Definition publishSaved (overviewSaved : Result unit)
    (contentResults : list (Item * Result unit)) (batch : list Item) (st : State) : State :=
  foldl
    (fun st item =>
       if bothSaved overviewSaved contentResults item
       then log (PublishItemUpdated item) st else st)
    st batch.

Definition step (sys : System) (s : Step) : System :=
  match s with
  | Save item =>
      match saveItem_prepare item (store sys) with
      | (Ok prepared, st) =>
          let '(contentSaved, st') := saveItem_content prepared.1 prepared.2 st in
          {| store := st';
             queue := queuePush prepared.1 (queue sys);
             flushes := flushes sys;
             pushes := pushes sys ++ [(prepared.1, contentSaved)] |}
      | (Err _, st) =>
          {| store := st; queue := queue sys; flushes := flushes sys; pushes := pushes sys |}
      end
  | Flushed =>
      match running (queue sys) with
      | Some batch =>
          let '(overviewSaved, st') := updateIndex batch (store sys) in
          {| store := publishSaved overviewSaved (pushes sys) batch st';
             queue := queueFlushed (queue sys);
             flushes := flushes sys ++ [(batch, overviewSaved)];
             pushes := pushes sys |}
      | None => sys
      end
  end.

Definition run (sys : System) (schedule : list Step) : System :=
  foldl step sys schedule.



End Store.

Arguments ItemOverview : clear implicits.
Arguments Item : clear implicits.
Arguments Event : clear implicits.
Arguments State : clear implicits.
Arguments Collaborators : clear implicits.
Arguments Queue : clear implicits.
Arguments System : clear implicits.
Arguments Step : clear implicits.

(** * The item list of the web UI (src/webui/stores/items.ts) *)

(** A value that may be [null]. *)
Inductive Nullable (A : Type) : Type :=
| Null
| Object (a : A).
Arguments Null {A}.
Arguments Object {A} a.

#[global] Instance Nullable_eq_dec {A} `{EqDecision A} : EqDecision (Nullable A).
Proof. solve_decision. Defined.

(** The object behind a property, when the property is truthy. *)
Definition truthyObject {A} (v : option (Nullable A)) : option A :=
  match v with
  | Some (Object a) => Some a
  | _ => None
  end.

(** One source of [assign] on one property: a property the source has
    replaces the target's. *)
Definition assignField {A} (target source : option A) : option A :=
  match source with
  | Some v => Some v
  | None => target
  end.

Section ItemsStore.

Context {ItemContent OpenContents ItemEditMode SyncProgress : Type}.

(** References to an item_store.Store and to a sync.Syncer: objects that
    [!==] compares by identity. *)
Definition StoreRef := nat.
Definition SyncerRef := nat.

(** interface State.  Every property is optional: [None] is a property
    that the object does not have, and reads as undefined. *)
Record UiState := {
  ui_store : option (Nullable StoreRef);
  ui_items : option (list (Item ItemContent OpenContents));
  ui_selectedItem : option (Nullable (Item ItemContent OpenContents));
  ui_itemEditMode : option ItemEditMode;
  ui_isLocked : option bool;
  ui_currentUrl : option string;
  ui_syncer : option (Nullable SyncerRef);
  ui_syncState : option SyncProgress
}.

(** The object [{}]. *)
Definition noState : UiState :=
  {| ui_store := None; ui_items := None; ui_selectedItem := None;
     ui_itemEditMode := None; ui_isLocked := None; ui_currentUrl := None;
     ui_syncer := None; ui_syncState := None |}.

(** Modelled from the spec: lib/base/assign is not in src; by its use,
    [assign(target, source)] copies the properties of the source onto the
    target, as Object.assign does.  [assign(target, s1, s2)] is
    [assign (assign target s1) s2]. *)
Definition assign (target source : UiState) : UiState :=
  {| ui_store := assignField (ui_store target) (ui_store source);
     ui_items := assignField (ui_items target) (ui_items source);
     ui_selectedItem := assignField (ui_selectedItem target) (ui_selectedItem source);
     ui_itemEditMode := assignField (ui_itemEditMode target) (ui_itemEditMode source);
     ui_isLocked := assignField (ui_isLocked target) (ui_isLocked source);
     ui_currentUrl := assignField (ui_currentUrl target) (ui_currentUrl source);
     ui_syncer := assignField (ui_syncer target) (ui_syncer source);
     ui_syncState := assignField (ui_syncState target) (ui_syncState source) |}.

(** [nextState.selectedItem = v] *)
Definition set_selectedItem (v : Nullable (Item ItemContent OpenContents))
    (s : UiState) : UiState :=
  {| ui_store := ui_store s; ui_items := ui_items s; ui_selectedItem := Some v;
     ui_itemEditMode := ui_itemEditMode s; ui_isLocked := ui_isLocked s;
     ui_currentUrl := ui_currentUrl s; ui_syncer := ui_syncer s;
     ui_syncState := ui_syncState s |}.

(** [nextState.items = v] *)
Definition set_items (v : list (Item ItemContent OpenContents)) (s : UiState) : UiState :=
  {| ui_store := ui_store s; ui_items := Some v; ui_selectedItem := ui_selectedItem s;
     ui_itemEditMode := ui_itemEditMode s; ui_isLocked := ui_isLocked s;
     ui_currentUrl := ui_currentUrl s; ui_syncer := ui_syncer s;
     ui_syncState := ui_syncState s |}.

(** The object [{items: v}]. *)
Definition itemsOnly (v : list (Item ItemContent OpenContents)) : UiState :=
  set_items v noState.

(** What the UI store does to its collaborators, in order. *)
Inductive UiEvent :=
| SyncerIgnore (syncer : SyncerRef)   (* syncer.onProgress.ignoreContext(this) *)
| SyncerListen (syncer : SyncerRef)   (* syncer.onProgress.listen(syncListener, this) *)
| StoreIgnore (store : StoreRef)      (* store.onItemUpdated.ignoreContext(this) *)
| StoreListen (store : StoreRef)      (* store.onItemUpdated.listen(debouncedRefresh, this) *)
| StateChanged (partial : UiState)    (* stateChanged.publish(state) *)
| ErrorLogged (e : Error).            (* console.log('Error listing items: ', err) *)

(** class Store of items.ts: its state and the log of its effects. *)
Record ItemsStore := {
  state : UiState;
  effects : list UiEvent
}.

(** The store after [new Store()]; [editItem] is
    details_view.ItemEditMode.EditItem. *)
Definition newItemsStore (editItem : ItemEditMode) : ItemsStore :=
  {| state :=
       {| ui_store := Some Null; ui_items := Some []; ui_selectedItem := Some Null;
          ui_itemEditMode := Some editItem; ui_isLocked := Some true;
          ui_currentUrl := Some ""; ui_syncer := Some Null; ui_syncState := None |};
     effects := [] |}.

(** private refreshItems(), up to its call of listItems: the store that
    is asked for its items, if the state has one. *)
Definition refreshItems_store (s : ItemsStore) : option StoreRef :=
  truthyObject (ui_store (state s)).

(** update(state): the store after the call, and the store whose listItems
    was called on the way, if any.  The adjustments of [nextState] are made
    as in the source, although only its [syncer] and [store] are read after
    them. *)
Definition update (partial : UiState) (s : ItemsStore) : ItemsStore * option StoreRef :=
  let nextState := assign (assign noState (state s)) partial in
  let nextState :=
    if bool_decide (ui_currentUrl nextState <> ui_currentUrl (state s))
    then set_selectedItem Null nextState else nextState in
  let unlocking :=
    bool_decide (ui_isLocked nextState <> ui_isLocked (state s)) &&
    bool_decide (ui_isLocked nextState = Some false) in
  let nextState :=
    if unlocking then set_items [] (set_selectedItem Null nextState) else nextState in
  let doRefresh := unlocking in
  let syncerEffects :=
    if bool_decide (ui_syncer nextState <> ui_syncer (state s)) then
      match truthyObject (ui_syncer (state s)) with
      | Some r => [SyncerIgnore r] | None => [] end ++
      match truthyObject (ui_syncer nextState) with
      | Some r => [SyncerListen r] | None => [] end
    else [] in
  let storeEffects :=
    if bool_decide (ui_store nextState <> ui_store (state s)) then
      match truthyObject (ui_store (state s)) with
      | Some r => [StoreIgnore r] | None => [] end ++
      match truthyObject (ui_store nextState) with
      | Some r => [StoreListen r] | None => [] end
    else [] in
  let listing := if doRefresh then refreshItems_store s else None in
  ({| state := assign (state s) partial;
      effects := effects s ++ syncerEffects ++ storeEffects ++ [StateChanged partial] |},
   listing).

(** item_store.Item.isRegularItem() is not in src. *)
Context (isRegularItem : Item ItemContent OpenContents -> bool).

(** The callbacks of refreshItems, run on the store as it is when the
    listing settles: the visible items are put into the state, or the error
    is logged. *)
Definition refreshItems_settled (listing : Result (list (Item ItemContent OpenContents)))
    (s : ItemsStore) : ItemsStore * option StoreRef :=
  match listing with
  | Ok items =>
      let visibleItems :=
        List.filter (fun item => isRegularItem item && negb (trashed item)) items in
      update (itemsOnly visibleItems) s
  | Err e => ({| state := state s; effects := effects s ++ [ErrorLogged e] |}, None)
  end.

Context (env : Collaborators ItemContent OpenContents).

(** An update, followed by the settling of the listing it started, the
    store [r] being in the state [world r]. *)
Definition updateAndSettle (world : StoreRef -> State ItemContent OpenContents)
    (partial : UiState) (s : ItemsStore) : ItemsStore :=
  match update partial s with
  | (s', Some r) => (refreshItems_settled (listItems env noOptions (world r)).1 s').1
  | (s', None) => s'
  end.

(** Modelled from the spec: lib/base/event_stream is not in src; it offers
    "listener registration" and "per-subscriber-context removal".  The
    number of listeners this UI store has on the onItemUpdated stream of
    the store [r], after the effects [l]. *)
Fixpoint storeListeners (r : StoreRef) (l : list UiEvent) (n : nat) : nat :=
  match l with
  | [] => n
  | StoreListen r' :: rest => storeListeners r rest (if Nat.eqb r' r then S n else n)
  | StoreIgnore r' :: rest => storeListeners r rest (if Nat.eqb r' r then 0 else n)
  | _ :: rest => storeListeners r rest n
  end.

End ItemsStore.

Arguments UiState : clear implicits.
Arguments UiEvent : clear implicits.
Arguments ItemsStore : clear implicits.


(** ** Test doubles

    Collaborators for concrete runs: the crypto is transparent, a content is
    its own JSON text, and the text of an index is a bracket followed by
    the binary digits of the code of the map. *)

Definition testOverviewTuple (o : ItemOverview unit)
    : string * Z * Z * bool * string * list string * string :=
  (o_title o, o_updatedAt o, o_createdAt o, o_trashed o, o_typeName o,
   o_locations o, o_account o).

Definition testOverviewOfTuple
    (t : string * Z * Z * bool * string * list string * string) : ItemOverview unit :=
  let '(a, b, c, d, e, f, g) := t in
  {| o_title := a; o_updatedAt := b; o_createdAt := c; o_trashed := d;
     o_typeName := e; o_openContents := tt; o_locations := f; o_account := g |}.

#[global] Instance testOverview_eq_dec : EqDecision (ItemOverview unit).
Proof. solve_decision. Defined.

#[global] Instance testOverview_countable : Countable (ItemOverview unit).
Proof.
  apply (inj_countable' testOverviewTuple testOverviewOfTuple).
  intros [? ? ? ? ? [] ? ?]. reflexivity.
Defined.

Fixpoint bitsOfPos (p : positive) : string :=
  match p with
  | xH => ""
  | xO q => String "0"%char (bitsOfPos q)
  | xI q => String "1"%char (bitsOfPos q)
  end.

Fixpoint posOfBits (s : string) : option positive :=
  match s with
  | "" => Some xH
  | String c r =>
      match posOfBits r with
      | Some p =>
          if Ascii.eqb c "0"%char then Some (xO p)
          else if Ascii.eqb c "1"%char then Some (xI p)
          else None
      | None => None
      end
  end.

Definition testStringifyIndex (m : gmap string (ItemOverview unit)) : string :=
  String "{"%char (bitsOfPos (encode m)).

Definition testParseIndex (s : string) : Result (option (gmap string (ItemOverview unit))) :=
  match s with
  | String "{"%char r =>
      match posOfBits r ≫= decode with
      | Some m => Ok (Some m)
      | None => Err SyntaxError
      end
  | _ => if String.eqb s "null" then Ok None else Err SyntaxError
  end.

(** Modelled from the spec: item_store.Item.isTombstone() is not in src; the
    data model calls [trashed] the "boolean tombstone flag", and a tombstone
    is "a logically deleted item retained (marked `trashed`)". *)
Definition isTombstone_spec {C O : Type} (item : Item C O) : bool := trashed item.

(** Stamps the time of the update: one second after the previous one. *)
Definition testUpdateTimestamps (item : Item string unit) : Item string unit :=
  {| uuid := uuid item; title := title item;
     updatedAt := (updatedAt item + 1000)%Z; createdAt := createdAt item;
     trashed := trashed item; typeName := typeName item;
     openContents := openContents item; locations := locations item;
     account := account item; content := content item |}.

(** Decrypts a key set whose every key was encrypted under [pwd]; the
    double keeps the password next to the key as its material. *)
Definition testDecryptKeys (keys : list Key) (pwd : string) : Result (list DecryptedKey) :=
  if forallb (fun k => String.eqb (keyData k) pwd) keys
  then Ok (map (fun k => {| id := identifier k; key := keyData k |}) keys)
  else Err InvalidPassword.

Definition testEnv : Collaborators string unit :=
  {| isTombstone := isTombstone_spec;
     updateTimestamps := testUpdateTimestamps;
     updateOverviewFromContent := fun item _ => item;
     decryptKeys := testDecryptKeys;
     agentEncrypt := fun _ text => Ok text;
     agentDecrypt := fun _ text => Ok text;
     stringifyIndex := testStringifyIndex;
     parseIndex := testParseIndex;
     stringifyContent := fun c => c;
     parseContent := fun text => Ok text |}.

Definition testItem (u t : string) (isTrashed : bool) : Item string unit :=
  {| uuid := u; title := t; updatedAt := 0; createdAt := 0; trashed := isTrashed;
     typeName := "webforms.WebForm"; openContents := tt; locations := [];
     account := ""; content := Some t |}.

(** An empty database, no key in the agent. *)
Definition emptyState : State string unit :=
  {| keyStore := ∅; hint := None; itemStore := ∅; writeFaults := ∅;
     agentKeys := []; trace := [] |}.

(** An empty database behind an agent that holds one key. *)
Definition unlockedState : State string unit :=
  {| keyStore := ∅; hint := None; itemStore := ∅; writeFaults := ∅;
     agentKeys := [("key1", "hunter2")]; trace := [] |}.

Definition bank : Item string unit := testItem "b1" "Bank" false.

(** A trashed item. *)
Definition old : Item string unit := testItem "o1" "Old" true.

Definition note : Item string unit := testItem "n1" "Note" false.

(** The unlocked store after [bank] and [old] were saved, one after the
    other. *)
Definition savedState : State string unit :=
  (saveItem testEnv old (saveItem testEnv bank unlockedState).2).2.

(** The index of [savedState]. *)
Definition savedIndex : gmap string (ItemOverview unit) :=
  {[ "b1" := overviewFromItem (testUpdateTimestamps bank);
     "o1" := overviewFromItem (testUpdateTimestamps old) ]}.


(** An unlocked store whose database rejects the index. *)
Definition indexFaultState : State string unit :=
  {| keyStore := ∅; hint := None; itemStore := ∅;
     writeFaults := {[ indexKey ]};
     agentKeys := [("key1", "hunter2")]; trace := [] |}.

(** A locked store with one persisted key, encrypted under "hunter2". *)
Definition lockedState : State string unit :=
  {| keyStore := {[ "key/k1" := {| identifier := "k1"; keyData := "hunter2" |} ]};
     hint := Some "a hunter"; itemStore := ∅; writeFaults := ∅;
     agentKeys := []; trace := [] |}.






(** The collaborators of [testEnv], with a key agent that rejects every
    encryption. *)
Definition failingEncryptEnv : Collaborators string unit :=
  {| isTombstone := isTombstone_spec;
     updateTimestamps := testUpdateTimestamps;
     updateOverviewFromContent := fun item _ => item;
     decryptKeys := testDecryptKeys;
     agentEncrypt := fun _ _ => Err CryptoFailure;
     agentDecrypt := fun _ text => Ok text;
     stringifyIndex := testStringifyIndex;
     parseIndex := testParseIndex;
     stringifyContent := fun c => c;
     parseContent := fun text => Ok text |}.

(** [st] after a flush of [batch] over the index [m]. *)
Definition flushed (m : gmap string (ItemOverview unit)) (batch : list (Item string unit))
    (st : State string unit) : State string unit :=
  written indexKey (VString (testStringifyIndex (overlay m batch))) st.

(** [savedState] after a flush of [note] and a new version of [bank]. *)
Definition flushedState : State string unit := flushed savedIndex [note; bank] savedState.

(** Two keys, encrypted under "hunter2". *)
Definition twoKeys : list Key :=
  [{| identifier := "k1"; keyData := "hunter2" |};
   {| identifier := "k2"; keyData := "hunter2" |}].

(** The state object [{store: store0}]. *)
Definition uiSetStore : UiState string unit unit unit :=
  {| ui_store := Some (Object 0); ui_items := None; ui_selectedItem := None;
     ui_itemEditMode := None; ui_isLocked := None; ui_currentUrl := None;
     ui_syncer := None; ui_syncState := None |}.

(** The state object [{isLocked: false}]. *)
Definition uiUnlock : UiState string unit unit unit :=
  {| ui_store := None; ui_items := None; ui_selectedItem := None;
     ui_itemEditMode := None; ui_isLocked := Some false; ui_currentUrl := None;
     ui_syncer := None; ui_syncState := None |}.

(** The state object [{store: store1, isLocked: false}]. *)
Definition uiSetOtherStoreAndUnlock : UiState string unit unit unit :=
  {| ui_store := Some (Object 1); ui_items := None; ui_selectedItem := None;
     ui_itemEditMode := None; ui_isLocked := Some false; ui_currentUrl := None;
     ui_syncer := None; ui_syncState := None |}.

(** The state object [{currentUrl: 'https://example.com'}]. *)
Definition uiSetUrl : UiState string unit unit unit :=
  {| ui_store := None; ui_items := None; ui_selectedItem := None;
     ui_itemEditMode := None; ui_isLocked := None;
     ui_currentUrl := Some "https://example.com";
     ui_syncer := None; ui_syncState := None |}.

(** A new UI store that was given the store 0. *)
Definition uiWithStore : ItemsStore string unit unit unit :=
  (update uiSetStore (newItemsStore tt)).1.

(** Every store is in the state [savedState]. *)
Definition savedWorld : StoreRef -> State string unit := fun _ => savedState.

(** Every store is locked. *)
Definition lockedWorld : StoreRef -> State string unit := fun _ => emptyState.

(** Every item is a regular item. *)
Definition allRegular : Item string unit -> bool := fun _ => true.


(** * Properties *)

Section Properties.

Context {ItemContent OpenContents : Type}.
Context (env : Collaborators ItemContent OpenContents).

Implicit Types (st : State ItemContent OpenContents).
Implicit Types (item : Item ItemContent OpenContents).
Implicit Types (m : gmap string (ItemOverview OpenContents)).
Implicit Types (opts : ListItemsOptions).

(** ** The active key *)

Lemma overviewKey_locked st :
  agentKeys st = [] -> overviewKey st = (Err Locked, st).
Proof. intros H. unfold overviewKey, bind, agent_listKeys, gets, throw. by rewrite H. Qed.

Lemma overviewKey_first st k material rest :
  agentKeys st = (k, material) :: rest -> overviewKey st = (Ok k, st).
Proof. intros H. unfold overviewKey, bind, agent_listKeys, gets, ret. by rewrite H. Qed.

(** ** Listing *)

Lemma listItems_locked st opts :
  agentKeys st = [] -> listItems env opts st = (Err Locked, st).
Proof. intros H. unfold listItems, bind. by rewrite overviewKey_locked. Qed.

(** With a key in the agent, listItems is the items of the stored index. *)
Lemma listItems_unlocked st opts k material rest :
  agentKeys st = (k, material) :: rest ->
  listItems env opts st =
    (match storedIndex env k st with
     | Ok m => Ok (itemsOfIndex env opts m)
     | Err e => Err e
     end, st).
Proof.
  intros H. unfold listItems, bind, storedIndex.
  rewrite (overviewKey_first _ _ _ _ H). unfold itemStore_get, gets, lift, ret.
  destruct (decryptIndex env k (itemStore st !! indexKey)) as [d|e]; [|done].
  by destruct (parseOverviewMap env d).
Qed.

(** listItems leaves the state as it is. *)
Lemma listItems_state st opts :
  (listItems env opts st).2 = st.
Proof.
  destruct (agentKeys st) as [|[k material] rest] eqn:H.
  - by rewrite listItems_locked.
  - by rewrite (listItems_unlocked _ _ _ _ _ H).
Qed.

Lemma elem_of_itemsOfIndex opts m item :
  item ∈ itemsOfIndex env opts m <->
  (exists o, m !! uuid item = Some o /\ item = itemFromOverview (uuid item) o) /\
  (isTombstone env item = false \/ truthy (includeTombstones opts) = true).
Proof.
  unfold itemsOfIndex. rewrite list_elem_of_In, filter_In, in_map_iff.
  rewrite orb_true_iff, negb_true_iff. split.
  - intros [[[u o] [<- Hin]] Hvis]. split; [|done].
    apply list_elem_of_In, elem_of_map_to_list in Hin. by exists o.
  - intros [[o [Hm Hitem]] Hvis]. split; [|done].
    exists (uuid item, o). split; [done|].
    by apply list_elem_of_In, elem_of_map_to_list.
Qed.

(** C7: when the database holds no entry under "index" and the agent holds
    a key, listItems resolves to the empty list, whatever the options. *)
Theorem listItems_absent_index st opts k material rest :
  agentKeys st = (k, material) :: rest ->
  itemStore st !! indexKey = None ->
  listItems env opts st = (Ok [], st).
Proof.
  intros Hkeys Habsent. rewrite (listItems_unlocked _ _ _ _ _ Hkeys).
  unfold storedIndex. rewrite Habsent. simpl.
  unfold itemsOfIndex. by rewrite map_to_list_empty.
Qed.


(** In a list of entries with distinct keys, at most one item has a given
    uuid: the one of the entry under that key, if it passes [visible]. *)
Lemma filter_uuid_entries (visible : Item ItemContent OpenContents -> bool)
    (l : list (string * ItemOverview OpenContents)) (u : string) :
  NoDup l.*1 ->
  List.filter (fun item => String.eqb (uuid item) u)
    (List.filter visible (map (fun kv => itemFromOverview kv.1 kv.2) l)) =
  match (list_to_map l : gmap string (ItemOverview OpenContents)) !! u with
  | Some o => if visible (itemFromOverview u o) then [itemFromOverview u o] else []
  | None => []
  end.
Proof.
  induction l as [|[k v] l IH]; intros Hnodup; [done|].
  apply NoDup_cons in Hnodup as [Hfresh Hnodup]. specialize (IH Hnodup).
  cbn [map list_to_map foldr fst snd uncurry List.filter].
  destruct (decide (k = u)) as [->|Hne].
  - rewrite lookup_insert_eq.
    apply not_elem_of_list_to_map_1 in Hfresh. setoid_rewrite Hfresh in IH.
    destruct (visible (itemFromOverview u v)); [|done].
    cbn [List.filter uuid itemFromOverview]. rewrite String.eqb_refl.
    by rewrite IH.
  - rewrite lookup_insert_ne by done.
    destruct (visible (itemFromOverview k v)); [|done].
    cbn [List.filter uuid itemFromOverview].
    apply String.eqb_neq in Hne. by rewrite Hne.
Qed.

Lemma filter_uuid_itemsOfIndex opts m u :
  List.filter (fun item => String.eqb (uuid item) u) (itemsOfIndex env opts m) =
  match m !! u with
  | Some o =>
      if negb (isTombstone env (itemFromOverview u o)) || truthy (includeTombstones opts)
      then [itemFromOverview u o] else []
  | None => []
  end.
Proof.
  unfold itemsOfIndex.
  rewrite (filter_uuid_entries _ _ _ (NoDup_fst_map_to_list m)).
  by rewrite list_to_map_to_list.
Qed.

(** C10: when the index reads as the map [m], loadItem resolves with the
    item of the entry under the uuid when that entry is no tombstone, and
    is rejected with 'No such item' otherwise: when the entry is a
    tombstone, although the index holds it, and when there is none. *)
Theorem loadItem_tombstone st u k material rest m :
  agentKeys st = (k, material) :: rest ->
  storedIndex env k st = Ok m ->
  loadItem env u st =
    (match m !! u with
     | Some o =>
         if isTombstone env (itemFromOverview u o) then Err (NotFound u)
         else Ok (itemFromOverview u o)
     | None => Err (NotFound u)
     end, st).
Proof.
  intros Hkeys Hindex. unfold loadItem, bind.
  rewrite (listItems_unlocked _ _ _ _ _ Hkeys), Hindex.
  rewrite filter_uuid_itemsOfIndex.
  destruct (m !! u) as [o|]; [|done].
  by destruct (isTombstone env (itemFromOverview u o)).
Qed.

(** ** The index update *)

Lemma overviewFromItem_itemFromOverview u (o : ItemOverview OpenContents) :
  overviewFromItem (itemFromOverview u o : Item ItemContent OpenContents) = o.
Proof. by destruct o. Qed.

Lemma lastWithUuid_filter u (items : list (Item ItemContent OpenContents)) :
  lastWithUuid u items = last (List.filter (fun item => String.eqb (uuid item) u) items).
Proof.
  induction items as [|item rest IH]; [done|].
  cbn [lastWithUuid List.filter]. rewrite IH.
  destruct (String.eqb (uuid item) u); [rewrite last_cons|];
    by destruct (last _).
Qed.

Lemma foldl_insert_lookup (items : list (Item ItemContent OpenContents))
    (start : gmap string (Item ItemContent OpenContents)) u :
  foldl (fun acc item => <[uuid item := item]> acc) start items !! u =
  match lastWithUuid u items with
  | Some item => Some item
  | None => start !! u
  end.
Proof.
  revert start. induction items as [|item rest IH]; intros start; [done|].
  cbn [foldl lastWithUuid]. rewrite IH.
  destruct (lastWithUuid u rest); [done|].
  destruct (String.eqb_spec (uuid item) u) as [<-|Hne].
  - by rewrite lookup_insert_eq.
  - by rewrite lookup_insert_ne.
Qed.

Lemma listToMap_itemsOfIndex m u :
  listToMap (itemsOfIndex env withTombstones m) !! u =
  (itemFromOverview u <$> m !! u : option (Item ItemContent OpenContents)).
Proof.
  unfold listToMap. rewrite foldl_insert_lookup, lookup_empty.
  rewrite lastWithUuid_filter, filter_uuid_itemsOfIndex.
  destruct (m !! u) as [o|]; [|done].
  change (truthy (includeTombstones withTombstones)) with true.
  by rewrite orb_true_r.
Qed.

Lemma overlay_lookup m (batch : list (Item ItemContent OpenContents)) u :
  overlay m batch !! u =
  match lastWithUuid u batch with
  | Some item => Some (overviewFromItem item)
  | None => m !! u
  end.
Proof.
  unfold overlay. revert m. induction batch as [|item rest IH]; intros m; [done|].
  cbn [foldl lastWithUuid]. rewrite IH.
  destruct (lastWithUuid u rest); [done|].
  destruct (String.eqb_spec (uuid item) u) as [<-|Hne].
  - by rewrite lookup_insert_eq.
  - by rewrite lookup_insert_ne.
Qed.

(** The map updateIndex builds from the listed items is the overlay of the
    batch onto the stored index. *)
Lemma mergeIndex_overlay m (batch : list (Item ItemContent OpenContents)) :
  mergeIndex (itemsOfIndex env withTombstones m) batch = overlay m batch.
Proof.
  apply map_eq. intros u. unfold mergeIndex.
  rewrite lookup_fmap, foldl_insert_lookup, overlay_lookup, listToMap_itemsOfIndex.
  destruct (lastWithUuid u batch); [done|].
  destruct (m !! u) as [o|]; [|done].
  cbn. by rewrite overviewFromItem_itemFromOverview.
Qed.

Lemma updateIndex_locked st batch :
  agentKeys st = [] -> updateIndex env batch st = (Err Locked, st).
Proof. intros H. unfold updateIndex, bind. by rewrite listItems_locked. Qed.

Lemma updateIndex_unlocked st batch k material rest :
  agentKeys st = (k, material) :: rest ->
  updateIndex env batch st =
    match storedIndex env k st with
    | Ok m =>
        match agentEncrypt env k (stringifyIndex env (overlay m batch)) with
        | Ok encrypted => itemStore_set indexKey (VString encrypted) st
        | Err e => (Err e, st)
        end
    | Err e => (Err e, st)
    end.
Proof.
  intros Hkeys. unfold updateIndex, bind.
  rewrite (listItems_unlocked _ _ _ _ _ Hkeys).
  destruct (storedIndex env k st) as [m|e]; [|done].
  rewrite (overviewKey_first _ _ _ _ Hkeys). unfold lift.
  change {| includeTombstones := Some true |} with withTombstones.
  rewrite mergeIndex_overlay.
  by destruct (agentEncrypt env k (stringifyIndex env (overlay m batch))).
Qed.

Lemma itemStore_set_ok k v st :
  k ∉ writeFaults st -> itemStore_set k v st = (Ok tt, written k v st).
Proof. intros H. unfold itemStore_set. by rewrite decide_False. Qed.

(** An index update either fails and leaves the state as it was, or
    succeeds with one write, under "index". *)
Lemma updateIndex_effect st batch r st' :
  updateIndex env batch st = (r, st') ->
  (exists e, r = Err e /\ st' = st) \/
  (exists encrypted k text,
     r = Ok tt /\ (agentKeys st).*1 !! 0 = Some k /\
     agentEncrypt env k text = Ok encrypted /\
     st' = written indexKey (VString encrypted) st).
Proof.
  intros Hupdate.
  destruct (agentKeys st) as [|[k material] rest] eqn:Hkeys.
  { rewrite updateIndex_locked in Hupdate by done. left. exists Locked. by inversion Hupdate. }
  rewrite (updateIndex_unlocked _ _ _ _ _ Hkeys) in Hupdate.
  destruct (storedIndex env k st) as [m|e]; [|left; exists e; by inversion Hupdate].
  destruct (agentEncrypt env k _) as [encrypted|e] eqn:Henc;
    [|left; exists e; by inversion Hupdate].
  unfold itemStore_set in Hupdate. case_decide.
  - left. eexists. by inversion Hupdate.
  - right. exists encrypted, k, (stringifyIndex env (overlay m batch)).
    by inversion Hupdate.
Qed.


(** ** Content *)

Lemma contentKey_not_index u : contentKey u <> indexKey.
Proof. unfold contentKey, indexKey. cbn. discriminate. Qed.

Lemma getContent_locked st item :
  agentKeys st = [] -> getContent env item st = (Err Locked, st).
Proof. intros H. unfold getContent, keyForItem, bind. by rewrite overviewKey_locked. Qed.

Lemma getContent_unlocked st item k material rest :
  agentKeys st = (k, material) :: rest ->
  getContent env item st =
    (match itemStore st !! contentKey (uuid item) with
     | None => Err TypeError
     | Some (VContent c) =>
         match agentDecrypt env k (data c) with
         | Ok text => parseContent env text
         | Err e => Err e
         end
     | Some (VString _) => Err TypeError
     end, st).
Proof.
  intros H. unfold getContent, keyForItem, bind.
  rewrite (overviewKey_first _ _ _ _ H). unfold itemStore_get, gets, lift, throw.
  destruct (itemStore st !! contentKey (uuid item)) as [[s|c]|]; try done.
  by destruct (agentDecrypt env k (data c)).
Qed.

Lemma getContent_state st item : (getContent env item st).2 = st.
Proof.
  destruct (agentKeys st) as [|[k material] rest] eqn:H.
  - by rewrite getContent_locked.
  - by rewrite (getContent_unlocked _ _ _ _ _ H).
Qed.

Lemma Item_getContent_state st item : (Item_getContent env item st).2 = st.
Proof.
  unfold Item_getContent. destruct (content item); [done|]. apply getContent_state.
Qed.

(** ** Saving *)

Lemma saveItem_prepare_locked st item :
  agentKeys st = [] -> saveItem_prepare env item st = (Err Locked, st).
Proof.
  intros H. unfold saveItem_prepare, keyForItem, bind. by rewrite overviewKey_locked.
Qed.

Lemma saveItem_prepare_unlocked st item k material rest :
  agentKeys st = (k, material) :: rest ->
  saveItem_prepare env item st =
    (match (Item_getContent env (updateTimestamps env item) st).1 with
     | Ok c =>
         match agentEncrypt env k (stringifyContent env c) with
         | Ok contentData =>
             Ok (updateOverviewFromContent env (updateTimestamps env item) c, contentData)
         | Err e => Err e
         end
     | Err e => Err e
     end, st).
Proof.
  intros H. unfold saveItem_prepare, keyForItem, bind.
  rewrite (overviewKey_first _ _ _ _ H).
  pose proof (Item_getContent_state st (updateTimestamps env item)) as Hst.
  destruct (Item_getContent env (updateTimestamps env item) st) as [[c|e] st0];
    cbn in Hst; subst st0; [|done].
  unfold lift, ret. cbn.
  by destruct (agentEncrypt env k (stringifyContent env c)).
Qed.

Lemma saveItem_prepare_state st item : (saveItem_prepare env item st).2 = st.
Proof.
  destruct (agentKeys st) as [|[k material] rest] eqn:H.
  - by rewrite saveItem_prepare_locked.
  - by rewrite (saveItem_prepare_unlocked _ _ _ _ _ H).
Qed.

Lemma saveItem_locked st item :
  agentKeys st = [] -> saveItem env item st = (Err Locked, st).
Proof. intros H. unfold saveItem, bind. by rewrite saveItem_prepare_locked. Qed.

(** After its start, saveItem is its two writes, joined, and the event. *)
Lemma saveItem_prepared st item item2 contentData :
  saveItem_prepare env item st = (Ok (item2, contentData), st) ->
  saveItem env item st =
    (let '(contentSaved, st1) := saveItem_content item2 contentData st in
     let '(overviewSaved, st2) := updateIndex env [item2] st1 in
     match Q_all2 overviewSaved contentSaved with
     | Ok _ => (Ok tt, log (PublishItemUpdated item2) st2)
     | Err e => (Err e, st2)
     end).
Proof.
  intros H. unfold saveItem, bind, settle, indexUpdateQueue_push, lift, publish, modify.
  rewrite H. cbn [fst snd].
  destruct (saveItem_content item2 contentData st) as [contentSaved st1].
  destruct (updateIndex env [item2] st1) as [overviewSaved st2].
  by destruct (Q_all2 overviewSaved contentSaved).
Qed.

(** With a key [k] in the agent, getContent is rejected with the TypeError
    of reading [data] of undefined when the database has no entry under
    "content/" + item.uuid, and otherwise decrypts the entry's data under
    [k] and deserializes the result. *)
Lemma getContent_absent_or_present st item k material rest :
  agentKeys st = (k, material) :: rest ->
  (itemStore st !! contentKey (uuid item) = None ->
   getContent env item st = (Err TypeError, st)) /\
  (forall c,
     itemStore st !! contentKey (uuid item) = Some (VContent c) ->
     getContent env item st =
       (match agentDecrypt env k (data c) with
        | Ok text => parseContent env text
        | Err e => Err e
        end, st)).
Proof.
  intros Hkeys. split.
  - intros Habsent. by rewrite (getContent_unlocked _ _ _ _ _ Hkeys), Habsent.
  - intros c Hpresent. by rewrite (getContent_unlocked _ _ _ _ _ Hkeys), Hpresent.
Qed.

Lemma saveItem_content_result st item contentData :
  saveItem_content item contentData st =
    if bool_decide (contentKey (uuid item) ∉ writeFaults st)
    then (Ok tt, written (contentKey (uuid item)) (VContent {| data := contentData |}) st)
    else (Err (StorageFailure (contentKey (uuid item))), st).
Proof.
  unfold saveItem_content, itemStore_set.
  destruct (decide (contentKey (uuid item) ∈ writeFaults st)) as [Hin|Hout].
  - rewrite bool_decide_eq_false_2; [done|]. by intros Hn.
  - by rewrite bool_decide_eq_true_2.
Qed.

(** A save that resolved made both writes and then published. *)
Lemma saveItem_resolved st st' item pushed contentData :
  saveItem_prepare env item st = (Ok (pushed, contentData), st) ->
  saveItem env item st = (Ok tt, st') ->
  exists encrypted,
    st' = log (PublishItemUpdated pushed)
            (written indexKey (VString encrypted)
               (written (contentKey (uuid pushed)) (VContent {| data := contentData |}) st)).
Proof.
  intros Hprep Hsave.
  rewrite (saveItem_prepared _ _ _ _ Hprep), saveItem_content_result in Hsave.
  destruct (bool_decide (contentKey (uuid pushed) ∉ writeFaults st)).
  - destruct (updateIndex env [pushed] _) as [r s] eqn:Hup.
    apply updateIndex_effect in Hup as [[e [-> ->]]|[enc [? [? [-> [_ [_ ->]]]]]]];
      [done|].
    exists enc. cbn in Hsave. by injection Hsave as <-.
  - destruct (updateIndex env [pushed] st) as [[[]|e] s]; cbn in Hsave; congruence.
Qed.


(** C5: with no key in the agent, listItems, saveItem, getContent and the
    index flush are rejected with Locked; with keys, the active key is the
    first key id the agent lists, and the index and the content that a flush
    and a save write are encrypted under it. *)
Theorem locked_or_first_key st :
  (agentKeys st = [] ->
   forall opts item batch,
     listItems env opts st = (Err Locked, st) /\
     saveItem env item st = (Err Locked, st) /\
     getContent env item st = (Err Locked, st) /\
     updateIndex env batch st = (Err Locked, st)) /\
  (forall k material rest,
     agentKeys st = (k, material) :: rest ->
     overviewKey st = (Ok k, st) /\
     (forall item, keyForItem item st = (Ok k, st)) /\
     (forall batch st',
        updateIndex env batch st = (Ok tt, st') ->
        exists text encrypted,
          agentEncrypt env k text = Ok encrypted /\
          itemStore st' !! indexKey = Some (VString encrypted)) /\
     (forall item st',
        saveItem env item st = (Ok tt, st') ->
        exists pushed c contentData,
          saveItem_prepare env item st = (Ok (pushed, contentData), st) /\
          agentEncrypt env k (stringifyContent env c) = Ok contentData /\
          itemStore st' !! contentKey (uuid pushed) =
            Some (VContent {| data := contentData |}))).
Proof.
  split.
  - intros Hlocked opts item batch.
    by rewrite listItems_locked, saveItem_locked, getContent_locked, updateIndex_locked.
  - intros k material rest Hkeys. split; [|split; [|split]].
    + by apply (overviewKey_first _ _ material rest).
    + intros item. by apply (overviewKey_first _ _ material rest).
    + intros batch st' Hupdate.
      apply updateIndex_effect in Hupdate as [[e [? _]]|[enc [k' [text [_ [Hk [Henc ->]]]]]]];
        [done|].
      rewrite Hkeys in Hk. injection Hk as <-.
      exists text, enc. split; [done|]. cbn. by rewrite lookup_insert_eq.
    + intros item st' Hsave.
      pose proof (saveItem_prepare_unlocked _ item _ _ _ Hkeys) as Hprep.
      destruct (Item_getContent env (updateTimestamps env item) st).1 as [c|e] eqn:Hc;
        [|unfold saveItem, bind in Hsave; by rewrite Hprep in Hsave].
      destruct (agentEncrypt env k (stringifyContent env c)) as [contentData|e] eqn:Henc;
        [|unfold saveItem, bind in Hsave; by rewrite Hprep in Hsave].
      destruct (saveItem_resolved _ _ _ _ _ Hprep Hsave) as [encrypted ->].
      eexists _, c, contentData. split; [done|]. split; [done|]. cbn.
      rewrite lookup_insert_ne by (apply not_eq_sym, contentKey_not_index).
      by rewrite lookup_insert_eq.
Qed.

(** C8: when the crypto is transparent and the content survives its JSON
    round trip, a save that succeeded is followed by a getContent that
    resolves with the content that was saved. *)
Theorem saveItem_getContent_roundtrip st st' item c :
  (forall k text encrypted,
     agentEncrypt env k text = Ok encrypted -> agentDecrypt env k encrypted = Ok text) ->
  parseContent env (stringifyContent env c) = Ok c ->
  (Item_getContent env (updateTimestamps env item) st).1 = Ok c ->
  saveItem env item st = (Ok tt, st') ->
  getContent env (updateOverviewFromContent env (updateTimestamps env item) c) st' =
    (Ok c, st').
Proof.
  intros Hcrypto Hjson Hc Hsave.
  destruct (agentKeys st) as [|[k material] rest] eqn:Hkeys.
  { by rewrite saveItem_locked in Hsave. }
  pose proof (saveItem_prepare_unlocked _ item _ _ _ Hkeys) as Hprep.
  rewrite Hc in Hprep.
  destruct (agentEncrypt env k (stringifyContent env c)) as [contentData|e] eqn:Henc;
    [|unfold saveItem, bind in Hsave; by rewrite Hprep in Hsave].
  destruct (saveItem_resolved _ _ _ _ _ Hprep Hsave) as [encrypted ->].
  set (pushed := updateOverviewFromContent env (updateTimestamps env item) c).
  set (st' := log _ _).
  assert (agentKeys st' = agentKeys st) as Hkeys' by done.
  assert (itemStore st' !! contentKey (uuid pushed) =
          Some (VContent {| data := contentData |})) as Hcontent.
  { subst st'. cbn. rewrite lookup_insert_ne by (apply not_eq_sym, contentKey_not_index).
    by rewrite lookup_insert_eq. }
  rewrite Hkeys in Hkeys'.
  rewrite (getContent_unlocked _ _ _ _ _ Hkeys'), Hcontent. cbn [data].
  by rewrite (Hcrypto _ _ _ Henc), Hjson.
Qed.

(** ** Unlocking *)

Lemma listKeys_persisted st : listKeys st = (Ok (persistedKeys st), st).
Proof. reflexivity. Qed.

Lemma persistedKeys_empty st : keyStore st = ∅ -> persistedKeys st = [].
Proof. intros H. unfold persistedKeys. by rewrite H, map_to_list_empty. Qed.

Lemma lookupKey_setKey i k held j :
  lookupKey j (setKey i k held) = if String.eqb i j then Some k else lookupKey j held.
Proof.
  induction held as [|[i' k'] rest IH]; cbn [setKey lookupKey]; [done|].
  destruct (String.eqb_spec i' i) as [->|Hne]; cbn [lookupKey].
  - by destruct (String.eqb i j).
  - rewrite IH. destruct (String.eqb_spec i' j) as [->|Hne']; [|done].
    apply not_eq_sym, String.eqb_neq in Hne. by rewrite Hne.
Qed.

Lemma lookupKey_addKeys_is_Some keys held i :
  is_Some (lookupKey i held) -> is_Some (lookupKey i (addKeys keys held)).
Proof.
  unfold addKeys. revert held. induction keys as [|k rest IH]; intros held H; [done|].
  cbn [foldl]. apply IH. rewrite lookupKey_setKey. by destruct (String.eqb (id k) i).
Qed.

Lemma lookupKey_addKeys_elem keys held k :
  k ∈ keys -> is_Some (lookupKey (id k) (addKeys keys held)).
Proof.
  unfold addKeys. revert held. induction keys as [|k' rest IH]; intros held H.
  - by apply elem_of_nil in H.
  - cbn [foldl]. apply elem_of_cons in H as [->|H]; [|by apply IH].
    apply lookupKey_addKeys_is_Some. rewrite lookupKey_setKey.
    by rewrite String.eqb_refl.
Qed.

(** Adding the keys one after the other: the agent's memory and the trace
    grow, the database stays. *)
Lemma forEach_addKey keys st :
  exists st',
    forEach (fun k => agent_addKey (id k) (key k)) keys st = (Ok tt, st') /\
    agentKeys st' = addKeys keys (agentKeys st) /\
    trace st' = trace st ++ ((fun k => AgentAddKey (id k)) <$> keys) /\
    keyStore st' = keyStore st /\ hint st' = hint st /\
    itemStore st' = itemStore st /\ writeFaults st' = writeFaults st.
Proof.
  revert st. induction keys as [|k rest IH]; intros st.
  - exists st. cbn. by rewrite app_nil_r.
  - destruct (IH (log (AgentAddKey (id k)) (with_agentKeys (setKey (id k) (key k)) st)))
      as (st' & Hrun & Hagent & Htrace & Hrest).
    exists st'. split; [|split; [|split]]; try done.
    rewrite Htrace. cbn. by rewrite <- app_assoc.
Qed.

(** C4: unlock is rejected with NoKeys when the key store holds no key;
    when the keys decrypt under the password, every decrypted key is added
    to the agent and onUnlock is published once, after the keys were added;
    when they do not, unlock is rejected with the error of the decryption
    and the agent's keys are as they were. *)
Theorem unlock_outcomes st pwd :
  (persistedKeys st = [] -> unlock env pwd st = (Err NoKeys, st)) /\
  (forall e,
     persistedKeys st <> [] ->
     decryptKeys env (persistedKeys st) pwd = Err e ->
     unlock env pwd st = (Err e, st)) /\
  (forall keys,
     persistedKeys st <> [] ->
     decryptKeys env (persistedKeys st) pwd = Ok keys ->
     exists st',
       unlock env pwd st = (Ok tt, st') /\
       agentKeys st' = addKeys keys (agentKeys st) /\
       (forall k, k ∈ keys -> is_Some (lookupKey (id k) (agentKeys st'))) /\
       trace st' =
         trace st ++ ((fun k => AgentAddKey (id k)) <$> keys) ++ [PublishUnlock] /\
       keyStore st' = keyStore st /\ itemStore st' = itemStore st).
Proof.
  split; [|split].
  - intros Hnone. unfold unlock, bind. by rewrite listKeys_persisted, Hnone.
  - intros e Hsome Hdecrypt. unfold unlock, bind. rewrite listKeys_persisted.
    destruct (persistedKeys st) as [|k0 ks]; [done|].
    cbn [length Nat.eqb]. unfold lift. by rewrite Hdecrypt.
  - intros keys Hsome Hdecrypt.
    destruct (forEach_addKey keys st)
      as (st1 & Hrun & Hagent & Htrace & Hks & _ & His & _).
    exists (log PublishUnlock st1). split; [|split; [|split; [|split]]].
    + unfold unlock, bind. rewrite listKeys_persisted.
      destruct (persistedKeys st) as [|k0 ks]; [done|].
      cbn [length Nat.eqb]. unfold lift. by rewrite Hdecrypt, Hrun.
    + done.
    + intros k Hin. cbn [log agentKeys]. rewrite Hagent.
      by apply lookupKey_addKeys_elem.
    + cbn [log trace]. by rewrite Htrace, <- app_assoc.
    + done.
Qed.

(** ** Concurrent saves *)



Lemma storedIndex_ext k st st' :
  itemStore st' !! indexKey = itemStore st !! indexKey ->
  storedIndex env k st' = storedIndex env k st.
Proof. intros H. unfold storedIndex. by rewrite H. Qed.








Lemma itemsOfIndex_NoDup opts m : NoDup (uuid <$> itemsOfIndex env opts m).
Proof.
  unfold itemsOfIndex. pose proof (NoDup_fst_map_to_list m) as Hnodup.
  induction (map_to_list m) as [|[u o] l IH]; [constructor|].
  apply NoDup_cons in Hnodup as [Hfresh Hnodup]. specialize (IH Hnodup).
  cbn [map List.filter fst snd].
  destruct (negb _ || _); [|done].
  rewrite fmap_cons. apply NoDup_cons. split; [|done].
  cbn [uuid itemFromOverview]. intros Hin.
  apply list_elem_of_fmap in Hin as [item [-> Hin]].
  apply list_elem_of_In, filter_In in Hin as [Hin _].
  apply in_map_iff in Hin as [[u' o'] [<- Hin]]. apply Hfresh.
  apply list_elem_of_fmap. exists (u', o'). split; [done|]. by apply list_elem_of_In.
Qed.

(** A save that runs alone is the schedule of its push and its flush: the
    sequential [saveItem] is this case of the concurrent model. *)
Lemma saveItem_alone st item :
  store (run env (initialSystem st) [Save item; Flushed]) = (saveItem env item st).2.
Proof.
  cbn [run foldl step initialSystem store queue pushes flushes].
  pose proof (saveItem_prepare_state st item) as Hst.
  destruct (saveItem_prepare env item st) as [[[pushed contentData]|e] st1] eqn:Hprep;
    cbn [snd] in Hst; subst st1.
  - rewrite (saveItem_prepared _ _ _ _ Hprep). cbn [fst snd].
    destruct (saveItem_content pushed contentData st) as [contentSaved st1].
    cbn [store queue pushes flushes queuePush idleQueue running pending app].
    destruct (updateIndex env [pushed] st1) as [overviewSaved st2].
    cbn [store publishSaved foldl bothSaved existsb fst snd].
    unfold bothSaved. cbn [existsb fst snd]. rewrite String.eqb_refl.
    by destruct overviewSaved, contentSaved.
  - cbn [store queue idleQueue running]. unfold saveItem, bind. by rewrite Hprep.
Qed.

Section TransparentIndex.

(** The crypto is transparent and gives no empty ciphertext, and an index
    survives its JSON round trip. *)
Hypothesis crypto_transparent :
  forall k text encrypted,
    agentEncrypt env k text = Ok encrypted -> agentDecrypt env k encrypted = Ok text.
Hypothesis ciphertext_truthy :
  forall k m encrypted,
    agentEncrypt env k (stringifyIndex env m) = Ok encrypted ->
    truthyString encrypted = true.
Hypothesis index_roundtrip :
  forall m, parseIndex env (stringifyIndex env m) = Ok (Some m).

(** What a flush wrote is what the next listing reads. *)
Lemma storedIndex_written st k m encrypted :
  agentEncrypt env k (stringifyIndex env m) = Ok encrypted ->
  storedIndex env k (written indexKey (VString encrypted) st) = Ok m.
Proof.
  intros Henc. unfold storedIndex, written. cbn [log with_itemStore itemStore].
  rewrite lookup_insert_eq. cbn [decryptIndex].
  rewrite (ciphertext_truthy _ _ _ Henc), (crypto_transparent _ _ _ Henc).
  cbn [parseOverviewMap]. by rewrite index_roundtrip.
Qed.




End TransparentIndex.

End Properties.

(** * Further properties of the store *)

Section MoreProperties.

Context {ItemContent OpenContents : Type}.
Context (env : Collaborators ItemContent OpenContents).

Implicit Types (st : State ItemContent OpenContents).
Implicit Types (item : Item ItemContent OpenContents).
Implicit Types (m : gmap string (ItemOverview OpenContents)).
Implicit Types (opts : ListItemsOptions).

(** ** Overviews and items *)


(** ** Listing, on any state *)

Lemma itemsOfIndex_filter opts m :
  itemsOfIndex env opts m =
  List.filter (fun item => negb (isTombstone env item) || truthy (includeTombstones opts))
    (itemsOfIndex env withTombstones m).
Proof.
  unfold itemsOfIndex.
  induction (map (fun kv => itemFromOverview kv.1 kv.2) (map_to_list m)) as [|item l IH];
    [done|].
  cbn [List.filter]. change (truthy (includeTombstones withTombstones)) with true.
  rewrite orb_true_r. cbn [List.filter]. by rewrite IH.
Qed.

(** A listing that resolved read an index under the first key. *)
Lemma listItems_ok_inv st opts items st' :
  listItems env opts st = (Ok items, st') ->
  st' = st /\
  exists k material rest m,
    agentKeys st = (k, material) :: rest /\
    storedIndex env k st = Ok m /\
    items = itemsOfIndex env opts m.
Proof.
  intros Hlist. pose proof (listItems_state env st opts) as Hst.
  rewrite Hlist in Hst. cbn in Hst. split; [done|].
  destruct (agentKeys st) as [|[k material] rest] eqn:Hkeys.
  { by rewrite listItems_locked in Hlist. }
  rewrite (listItems_unlocked _ _ _ _ _ _ Hkeys) in Hlist.
  destruct (storedIndex env k st) as [m|e] eqn:Hm; [|done].
  injection Hlist as <- _. by exists k, material, rest, m.
Qed.

(** X2: whatever the state, what listItems resolves with holds no uuid
    twice and only items whose content is not loaded, and listing leaves
    the state as it was. *)
Theorem listItems_shape st opts items st' :
  listItems env opts st = (Ok items, st') ->
  st' = st /\
  NoDup (uuid <$> items) /\
  (forall item, item ∈ items -> content item = None).
Proof.
  intros (-> & k & material & rest & m & _ & _ & ->)%listItems_ok_inv.
  split; [done|]. split; [apply itemsOfIndex_NoDup|].
  intros item [(o & _ & ->) _]%elem_of_itemsOfIndex. done.
Qed.

(** X3: a listing is the listing with tombstones filtered: it is rejected
    with the same error when that one is, and otherwise holds, in the same
    order, its items that are no tombstones (all of them when
    includeTombstones is set). *)
Theorem listItems_filters_full_listing st opts :
  listItems env opts st =
    (match (listItems env withTombstones st).1 with
     | Ok all =>
         Ok (List.filter
               (fun item => negb (isTombstone env item) || truthy (includeTombstones opts))
               all)
     | Err e => Err e
     end, st).
Proof.
  destruct (agentKeys st) as [|[k material] rest] eqn:Hkeys.
  { by rewrite !listItems_locked. }
  rewrite !(listItems_unlocked _ _ _ _ _ _ Hkeys).
  destruct (storedIndex env k st) as [m|e]; [|done].
  cbn [fst]. by rewrite <- itemsOfIndex_filter.
Qed.

(** What listItems() resolves with holds no tombstone. *)
Lemma listItems_default_no_tombstone st items st' item :
  listItems env noOptions st = (Ok items, st') ->
  item ∈ items -> isTombstone env item = false.
Proof.
  intros (_ & k & material & rest & m & _ & _ & ->)%listItems_ok_inv.
  intros [_ [?|Hopt]]%elem_of_itemsOfIndex; [done|discriminate].
Qed.

(** X4: what loadItem resolves with has the uuid that was asked for, is no
    tombstone and has no content loaded; loadItem leaves the state as it
    was, also when it is rejected. *)
Theorem loadItem_result st u :
  (loadItem env u st).2 = st /\
  (forall item,
     (loadItem env u st).1 = Ok item ->
     uuid item = u /\ isTombstone env item = false /\ content item = None).
Proof.
  unfold loadItem, bind.
  destruct (listItems env noOptions st) as [[items|e] st'] eqn:Hlist.
  - destruct (listItems_ok_inv _ _ _ _ Hlist) as (-> & k & material & rest & m & _ & _ & Hitems).
    destruct (List.filter _ items) as [|match_ others] eqn:Hfilter; [done|].
    split; [done|]. intros item [= <-].
    assert (In match_ (List.filter (fun item => String.eqb (uuid item) u) items))
      as [Hin Heq]%filter_In by (rewrite Hfilter; by left).
    apply list_elem_of_In in Hin. apply String.eqb_eq in Heq.
    split; [done|]. split; [by eapply listItems_default_no_tombstone|].
    subst items. by apply elem_of_itemsOfIndex in Hin as [(o & _ & ->) _].
  - pose proof (listItems_state env st noOptions) as Hst.
    rewrite Hlist in Hst. cbn in Hst. by subst.
Qed.

(** ** The index update, on any state *)

Lemma updateIndex_ok_inv st batch st' :
  updateIndex env batch st = (Ok tt, st') ->
  exists k material rest m encrypted,
    agentKeys st = (k, material) :: rest /\
    storedIndex env k st = Ok m /\
    agentEncrypt env k (stringifyIndex env (overlay m batch)) = Ok encrypted /\
    (indexKey ∉ writeFaults st) /\
    st' = written indexKey (VString encrypted) st.
Proof.
  intros Hupdate.
  destruct (agentKeys st) as [|[k material] rest] eqn:Hkeys.
  { by rewrite updateIndex_locked in Hupdate. }
  rewrite (updateIndex_unlocked _ _ _ _ _ _ Hkeys) in Hupdate.
  destruct (storedIndex env k st) as [m|e] eqn:Hm; [|done].
  destruct (agentEncrypt env k _) as [encrypted|e] eqn:Henc; [|done].
  unfold itemStore_set in Hupdate. case_decide; [done|].
  injection Hupdate as <-. by exists k, material, rest, m, encrypted.
Qed.

(** X5: an index update writes the whole index or nothing.  When it is
    rejected (locked, unreadable index, failed encryption, rejected write)
    the state is as it was; when it resolves, the entry under "index" is
    the only entry of the database that changed, and one write was made. *)
Theorem updateIndex_all_or_nothing st batch :
  let result := updateIndex env batch st in
  (isOk result.1 = false -> result.2 = st) /\
  (isOk result.1 = true ->
   (exists encrypted, itemStore result.2 !! indexKey = Some (VString encrypted)) /\
   (forall dbKey, dbKey <> indexKey -> itemStore result.2 !! dbKey = itemStore st !! dbKey) /\
   keyStore result.2 = keyStore st /\ hint result.2 = hint st /\
   agentKeys result.2 = agentKeys st /\
   trace result.2 = trace st ++ [ItemStoreSet indexKey]).
Proof.
  cbn zeta. destruct (updateIndex env batch st) as [r st'] eqn:Hupdate. cbn [fst snd].
  split.
  - intros Hfailed. apply updateIndex_effect in Hupdate as [[e [_ ->]]|[? [? [? [-> _]]]]];
      [done|discriminate].
  - intros Hok. destruct r as [[]|]; [|discriminate].
    apply updateIndex_ok_inv in Hupdate as (k & material & rest & m & enc & _ & _ & _ & _ & ->).
    split; [exists enc; cbn; by rewrite lookup_insert_eq|].
    split; [|done]. intros dbKey Hne. cbn. by rewrite lookup_insert_ne.
Qed.


Lemma overlay_app m (b1 b2 : list (Item ItemContent OpenContents)) :
  overlay (overlay m b1) b2 = overlay m (b1 ++ b2).
Proof. unfold overlay. by rewrite foldl_app. Qed.


Section TransparentIndexMore.

Hypothesis crypto_transparent :
  forall k text encrypted,
    agentEncrypt env k text = Ok encrypted -> agentDecrypt env k encrypted = Ok text.
Hypothesis ciphertext_truthy :
  forall k m encrypted,
    agentEncrypt env k (stringifyIndex env m) = Ok encrypted ->
    truthyString encrypted = true.
Hypothesis index_roundtrip :
  forall m, parseIndex env (stringifyIndex env m) = Ok (Some m).

Lemma updateIndex_stored st batch st' k material rest m :
  agentKeys st = (k, material) :: rest ->
  storedIndex env k st = Ok m ->
  updateIndex env batch st = (Ok tt, st') ->
  agentKeys st' = (k, material) :: rest /\
  storedIndex env k st' = Ok (overlay m batch).
Proof.
  intros Hkeys Hm Hupdate.
  apply updateIndex_ok_inv in Hupdate
    as (k' & material' & rest' & m' & enc & Hkeys' & Hm' & Henc & _ & ->).
  rewrite Hkeys in Hkeys'. injection Hkeys' as <- <- <-.
  rewrite Hm in Hm'. injection Hm' as <-.
  split; [done|].
  by apply (storedIndex_written env crypto_transparent ciphertext_truthy index_roundtrip).
Qed.


(** X8: flushing one batch after the other leaves the index that one
    flush of the two batches put together leaves: whatever the options, the
    listings after the two runs are the same. *)
Theorem updateIndex_sequence_is_batch st b1 b2 st1 st2 st12 opts :
  updateIndex env b1 st = (Ok tt, st1) ->
  updateIndex env b2 st1 = (Ok tt, st2) ->
  updateIndex env (b1 ++ b2) st = (Ok tt, st12) ->
  (listItems env opts st2).1 = (listItems env opts st12).1.
Proof.
  intros H1 H2 H12.
  destruct (updateIndex_ok_inv _ _ _ H1) as (k & material & rest & m & _ & Hkeys & Hm & _).
  destruct (updateIndex_stored _ _ _ _ _ _ _ Hkeys Hm H1) as [Hkeys1 Hm1].
  destruct (updateIndex_stored _ _ _ _ _ _ _ Hkeys1 Hm1 H2) as [Hkeys2 Hm2].
  destruct (updateIndex_stored _ _ _ _ _ _ _ Hkeys Hm H12) as [Hkeys12 Hm12].
  rewrite (listItems_unlocked _ _ _ _ _ _ Hkeys2), (listItems_unlocked _ _ _ _ _ _ Hkeys12).
  by rewrite Hm2, Hm12, overlay_app.
Qed.


End TransparentIndexMore.


(** ** Saving, and reading back *)

(** X10: a save whose encryption fails makes no write and publishes
    nothing: it is rejected with the error of the key agent and the state
    is as it was. *)
Theorem saveItem_encrypt_failure st item k material rest c e :
  agentKeys st = (k, material) :: rest ->
  (Item_getContent env (updateTimestamps env item) st).1 = Ok c ->
  agentEncrypt env k (stringifyContent env c) = Err e ->
  saveItem env item st = (Err e, st).
Proof.
  intros Hkeys Hc Henc. unfold saveItem, bind.
  by rewrite (saveItem_prepare_unlocked _ _ _ _ _ _ Hkeys), Hc, Henc.
Qed.

(** X11: the two writes of saveItem are not atomic, first case.  When the
    database rejects the write of the index, the save is rejected and
    publishes nothing, but the content is stored: with a transparent crypto
    getContent resolves with the new content, while every listing is as it
    was before the save. *)
Theorem saveItem_index_write_rejected st item pushed contentData c :
  (forall k text encrypted,
     agentEncrypt env k text = Ok encrypted -> agentDecrypt env k encrypted = Ok text) ->
  parseContent env (stringifyContent env c) = Ok c ->
  (Item_getContent env (updateTimestamps env item) st).1 = Ok c ->
  saveItem_prepare env item st = (Ok (pushed, contentData), st) ->
  indexKey ∈ writeFaults st ->
  contentKey (uuid pushed) ∉ writeFaults st ->
  let st' := written (contentKey (uuid pushed)) (VContent {| data := contentData |}) st in
  isOk (saveItem env item st).1 = false /\
  (saveItem env item st).2 = st' /\
  getContent env pushed st' = (Ok c, st') /\
  (forall opts, (listItems env opts st').1 = (listItems env opts st).1).
Proof.
  intros Hcrypto Hjson Hc Hprep Hindex Hcontent st'.
  destruct (agentKeys st) as [|[k material] rest] eqn:Hkeys.
  { by rewrite saveItem_prepare_locked in Hprep. }
  assert (agentEncrypt env k (stringifyContent env c) = Ok contentData) as Henc.
  { rewrite (saveItem_prepare_unlocked _ _ _ _ _ _ Hkeys), Hc in Hprep.
    destruct (agentEncrypt env k (stringifyContent env c)); by inversion Hprep. }
  assert (agentKeys st' = (k, material) :: rest) as Hkeys' by done.
  assert (itemStore st' !! indexKey = itemStore st !! indexKey) as Hsame.
  { cbn. by rewrite lookup_insert_ne by apply contentKey_not_index. }
  assert (exists e, updateIndex env [pushed] st' = (Err e, st')) as [e Hupdate].
  { rewrite (updateIndex_unlocked _ _ _ _ _ _ Hkeys').
    destruct (storedIndex env k st') as [m0|]; [|by eexists].
    destruct (agentEncrypt env k (stringifyIndex env (overlay m0 [pushed])));
      [|by eexists].
    unfold itemStore_set. case_decide as Hfault; [by eexists|].
    by destruct Hfault. }
  rewrite (saveItem_prepared _ _ _ _ _ Hprep), saveItem_content_result.
  rewrite bool_decide_eq_true_2 by done. fold st'. rewrite Hupdate. cbn [fst snd Q_all2 isOk].
  split; [done|]. split; [done|]. split.
  - rewrite (getContent_unlocked _ _ _ _ _ _ Hkeys'). subst st'. cbn.
    rewrite lookup_insert_eq. cbn. by rewrite (Hcrypto _ _ _ Henc), Hjson.
  - intros opts.
    rewrite (listItems_unlocked _ _ _ _ _ _ Hkeys'), (listItems_unlocked _ _ _ _ _ _ Hkeys).
    by rewrite (storedIndex_ext _ _ _ _ Hsame).
Qed.


Section TransparentIndexSaves.

Hypothesis crypto_transparent :
  forall k text encrypted,
    agentEncrypt env k text = Ok encrypted -> agentDecrypt env k encrypted = Ok text.
Hypothesis ciphertext_truthy :
  forall k m encrypted,
    agentEncrypt env k (stringifyIndex env m) = Ok encrypted ->
    truthyString encrypted = true.
Hypothesis index_roundtrip :
  forall m, parseIndex env (stringifyIndex env m) = Ok (Some m).



End TransparentIndexSaves.


(** ** Keys, and clearing *)

Lemma key_prefix_app i : String.prefix KEY_ID_PREFIX (KEY_ID_PREFIX +:+ i) = true.
Proof. cbn. by destruct i. Qed.

Lemma key_prefix_inj i j : KEY_ID_PREFIX +:+ i = KEY_ID_PREFIX +:+ j -> i = j.
Proof. unfold KEY_ID_PREFIX. cbn. intros Heq. by injection Heq. Qed.

Lemma elem_of_persistedKeys st (k : Key) :
  k ∈ persistedKeys st <->
  exists dbKey, String.prefix KEY_ID_PREFIX dbKey = true /\ keyStore st !! dbKey = Some k.
Proof.
  unfold persistedKeys. rewrite list_elem_of_omap. split.
  - intros (dbKey & Hin & Hlookup). exists dbKey. split; [|done].
    by apply list_elem_of_In, filter_In in Hin as [_ ?].
  - intros (dbKey & Hprefix & Hlookup). exists dbKey. split; [|done].
    apply list_elem_of_In, filter_In. split; [|done].
    apply list_elem_of_In, list_elem_of_fmap. exists (dbKey, k). split; [done|].
    by apply elem_of_map_to_list.
Qed.

(** The key store after saveKeys wrote each of [keys], in order. *)
Lemma forEach_keyStore_set (keys : list Key) st :
  exists st',
    forEach (fun k => keyStore_set (KEY_ID_PREFIX +:+ identifier k) k) keys st = (Ok tt, st') /\
    keyStore st' =
      foldl (fun ks k => <[KEY_ID_PREFIX +:+ identifier k := k]> ks) (keyStore st) keys /\
    hint st' = hint st /\ itemStore st' = itemStore st /\
    writeFaults st' = writeFaults st /\ agentKeys st' = agentKeys st.
Proof.
  revert st. induction keys as [|k keys IH]; intros st; [by exists st|].
  destruct (IH (log (KeyStoreSet (KEY_ID_PREFIX +:+ identifier k))
                  (with_keyStore <[KEY_ID_PREFIX +:+ identifier k := k]> st)))
    as (st' & Hrun & Hks & Hrest).
  exists st'. by split.
Qed.

Lemma saved_keys_lookup (keys : list Key) (ks : gmap string Key) dbKey k :
  foldl (fun ks k => <[KEY_ID_PREFIX +:+ identifier k := k]> ks) ks keys !! dbKey = Some k ->
  k ∈ keys \/ ks !! dbKey = Some k.
Proof.
  induction keys as [|k' keys IH] using rev_ind; [by right|].
  rewrite foldl_app. cbn [foldl].
  destruct (decide (KEY_ID_PREFIX +:+ identifier k' = dbKey)) as [<-|Hne].
  - rewrite lookup_insert_eq. intros [= ->]. left. apply elem_of_app. right.
    apply list_elem_of_here.
  - rewrite lookup_insert_ne by done. intros [Hin|Hold]%IH; [|by right].
    left. apply elem_of_app. by left.
Qed.

Lemma saved_keys_present (keys : list Key) (ks : gmap string Key) k :
  NoDup (identifier <$> keys) ->
  k ∈ keys ->
  foldl (fun ks k => <[KEY_ID_PREFIX +:+ identifier k := k]> ks) ks keys
    !! (KEY_ID_PREFIX +:+ identifier k) = Some k.
Proof.
  induction keys as [|k' keys IH] using rev_ind; intros Hnodup Hin.
  - by apply elem_of_nil in Hin.
  - rewrite fmap_app in Hnodup. apply NoDup_app in Hnodup as (Hnodup & Hfresh & _).
    rewrite foldl_app. cbn [foldl].
    apply elem_of_app in Hin as [Hin|Hin].
    + rewrite lookup_insert_ne; [by apply IH|].
      intros Heq%key_prefix_inj.
      apply (Hfresh (identifier k)); [by apply list_elem_of_fmap_2|].
      rewrite <- Heq. apply list_elem_of_here.
    + apply list_elem_of_singleton in Hin as ->. by rewrite lookup_insert_eq.
Qed.

(** X14: saveKeys followed by listKeys and passwordHint.  After keys with
    distinct identifiers were saved, listKeys holds each of them, and
    besides them only keys that were persisted before; passwordHint
    resolves with the saved hint; the item store and the key agent are as
    they were: saving keys does not unlock. *)
Theorem saveKeys_then_listKeys st (keys : list Key) h :
  NoDup (identifier <$> keys) ->
  exists st',
    saveKeys keys h st = (Ok tt, st') /\
    (forall k, k ∈ keys -> k ∈ persistedKeys st') /\
    (forall k, k ∈ persistedKeys st' -> k ∈ keys \/ k ∈ persistedKeys st) /\
    listKeys st' = (Ok (persistedKeys st'), st') /\
    passwordHint st' = (Ok (Some h), st') /\
    itemStore st' = itemStore st /\ agentKeys st' = agentKeys st.
Proof.
  intros Hnodup.
  destruct (forEach_keyStore_set keys st) as (st1 & Hrun & Hks & _ & His & _ & Ha).
  exists (log (KeyStoreSet "hint") (with_hint (Some h) st1)).
  split; [unfold saveKeys, bind; by rewrite Hrun|].
  split; [|split; [|done]].
  - intros k Hin. apply elem_of_persistedKeys. exists (KEY_ID_PREFIX +:+ identifier k).
    split; [apply key_prefix_app|]. cbn [log with_hint keyStore]. rewrite Hks.
    by apply saved_keys_present.
  - intros k (dbKey & Hprefix & Hlookup)%elem_of_persistedKeys.
    cbn [log with_hint keyStore] in Hlookup. rewrite Hks in Hlookup.
    apply saved_keys_lookup in Hlookup as [Hin|Hold]; [by left|].
    right. apply elem_of_persistedKeys. by exists dbKey.
Qed.

(** X15: clear forgets the database and nothing else.  After clear there
    is no persisted key, so unlock is rejected with NoKeys, and no hint; a
    second clear changes nothing; the key agent keeps its keys, so on a
    store that was unlocked the listing is empty, loadItem is rejected with
    'No such item', and getContent with the TypeError of the missing
    entry, rather than with Locked. *)
Theorem clear_forgets_database st :
  let st' := (clear st).2 in
  (clear st).1 = Ok tt /\
  clear st' = (Ok tt, st') /\
  listKeys st' = (Ok [], st') /\
  (forall pwd, unlock env pwd st' = (Err NoKeys, st')) /\
  passwordHint st' = (Ok None, st') /\
  agentKeys st' = agentKeys st /\
  trace st' = trace st /\
  (forall k material rest,
     agentKeys st = (k, material) :: rest ->
     (forall opts, listItems env opts st' = (Ok [], st')) /\
     (forall u, loadItem env u st' = (Err (NotFound u), st')) /\
     (forall item, getContent env item st' = (Err TypeError, st'))).
Proof.
  cbn zeta. set (st' := (clear st).2).
  assert (persistedKeys st' = []) as Hnone by (by apply persistedKeys_empty).
  split; [done|]. split; [done|].
  split; [by rewrite listKeys_persisted, Hnone|].
  split; [intros pwd; unfold unlock, bind; by rewrite listKeys_persisted, Hnone|].
  split; [done|]. split; [done|]. split; [done|].
  intros k material rest Hkeys.
  assert (agentKeys st' = (k, material) :: rest) as Hkeys' by done.
  assert (forall opts, listItems env opts st' = (Ok [], st')) as Hlist.
  { intros opts. rewrite (listItems_unlocked _ _ _ _ _ _ Hkeys').
    unfold storedIndex. replace (itemStore st' !! indexKey) with (@None ItemStoreValue)
      by (symmetry; apply lookup_empty).
    cbn. unfold itemsOfIndex. by rewrite map_to_list_empty. }
  split; [done|]. split.
  - intros u. unfold loadItem, bind. by rewrite Hlist.
  - intros item. rewrite (getContent_unlocked _ _ _ _ _ _ Hkeys').
    replace (itemStore st' !! contentKey (uuid item)) with (@None ItemStoreValue)
      by (symmetry; apply lookup_empty).
    done.
Qed.

Lemma setKey_not_nil i k held : setKey i k held <> [].
Proof. destruct held as [|[i' k'] rest]; cbn; [done|]. by destruct (String.eqb i' i). Qed.

Lemma addKeys_not_nil keys held : keys <> [] \/ held <> [] -> addKeys keys held <> [].
Proof.
  unfold addKeys. revert held. induction keys as [|k keys IH]; intros held Hne.
  - by destruct Hne.
  - cbn [foldl]. apply IH. right. apply setKey_not_nil.
Qed.

(** X16: an unlock that resolved with at least one decrypted key leaves the
    store unlocked: the agent lists a key, overviewKey resolves, and a
    listing is rejected only when the stored index cannot be read. *)
Theorem unlock_then_unlocked st pwd keys :
  persistedKeys st <> [] ->
  decryptKeys env (persistedKeys st) pwd = Ok keys ->
  keys <> [] ->
  exists st' k,
    unlock env pwd st = (Ok tt, st') /\
    overviewKey st' = (Ok k, st') /\
    itemStore st' = itemStore st /\
    (forall opts,
       listItems env opts st' =
         (match storedIndex env k st' with
          | Ok m => Ok (itemsOfIndex env opts m)
          | Err e => Err e
          end, st')).
Proof.
  intros Hsome Hdecrypt Hne.
  destruct (forEach_addKey keys st) as (st1 & Hrun & Hagent & _ & _ & _ & His & _).
  set (st' := log PublishUnlock st1).
  assert (unlock env pwd st = (Ok tt, st')) as Hunlock.
  { unfold unlock, bind. rewrite listKeys_persisted.
    destruct (persistedKeys st) as [|k0 ks]; [done|].
    cbn [length Nat.eqb]. unfold lift. by rewrite Hdecrypt, Hrun. }
  destruct (agentKeys st') as [|[k material] rest] eqn:Hkeys.
  { exfalso. apply (addKeys_not_nil keys (agentKeys st)); [by left|].
    by rewrite <- Hagent. }
  exists st', k. split; [done|].
  split; [by apply (overviewKey_first _ _ material rest)|]. split; [done|].
  intros opts. by apply (listItems_unlocked _ _ _ _ material rest).
Qed.


End MoreProperties.

(** * Properties of the item list of the web UI *)

Section ItemsStoreProperties.

Context {ItemContent OpenContents ItemEditMode SyncProgress : Type}.
Context (isRegularItem : Item ItemContent OpenContents -> bool).
Context (env : Collaborators ItemContent OpenContents).

Abbreviation UiState' := (UiState ItemContent OpenContents ItemEditMode SyncProgress).
Abbreviation ItemsStore' := (ItemsStore ItemContent OpenContents ItemEditMode SyncProgress).

Implicit Types (s : ItemsStore') (partial : UiState').

Lemma assignField_None_l {A} (v : option A) : assignField None v = v.
Proof. by destruct v. Qed.

Lemma assign_noState (st : UiState') : assign noState st = st.
Proof. destruct st. unfold assign. cbn. by rewrite !assignField_None_l. Qed.

(** X17: update stores the properties it is given and no other: the
    adjustments it makes to its copy of the next state do not reach the
    state.  An update that names neither the selected item nor the items
    leaves both as they were, also when it changes the current URL or
    unlocks. *)
Theorem update_stores_given_properties partial s :
  state (update partial s).1 = assign (state s) partial /\
  (ui_selectedItem partial = None ->
   ui_selectedItem (state (update partial s).1) = ui_selectedItem (state s)) /\
  (ui_items partial = None ->
   ui_items (state (update partial s).1) = ui_items (state s)) /\
  exists published,
    effects (update partial s).1 = effects s ++ published ++ [StateChanged partial] /\
    forall e, e ∈ published ->
      (exists r, e = SyncerIgnore r \/ e = SyncerListen r \/
                 e = StoreIgnore r \/ e = StoreListen r).
Proof.
  split; [done|]. split; [by intros H; cbn; rewrite H|].
  split; [by intros H; cbn; rewrite H|].
  unfold update. cbn [fst effects].
  match goal with
  | |- exists published, _ ++ ?a ++ ?b ++ _ = _ /\ _ => exists (a ++ b)
  end.
  split; [by rewrite <- app_assoc|].
  intros e [Hin|Hin]%elem_of_app.
  - case_bool_decide; [|by apply elem_of_nil in Hin].
    apply elem_of_app in Hin as [Hin|Hin];
      destruct (truthyObject _) as [r|]; try (by apply elem_of_nil in Hin);
      apply list_elem_of_singleton in Hin as ->; exists r; auto.
  - case_bool_decide; [|by apply elem_of_nil in Hin].
    apply elem_of_app in Hin as [Hin|Hin];
      destruct (truthyObject _) as [r|]; try (by apply elem_of_nil in Hin);
      apply list_elem_of_singleton in Hin as ->; exists r; auto.
Qed.

(** The adjustments of [nextState] leave its [isLocked] as it is. *)
Lemma isLocked_adjusted (b : bool) (x : UiState') :
  ui_isLocked (if b then set_selectedItem Null x else x) = ui_isLocked x.
Proof. by destruct b. Qed.

Lemma update_refresh_started partial s r :
  ui_isLocked (state s) <> Some false ->
  ui_isLocked (assign (state s) partial) = Some false ->
  ui_store (state s) = Some (Object r) ->
  (update partial s).2 = Some r.
Proof.
  intros Hold Hnew Hstore. unfold update. cbn [snd].
  rewrite assign_noState, !isLocked_adjusted.
  rewrite (bool_decide_eq_true_2 (ui_isLocked _ <> _)) by congruence.
  rewrite (bool_decide_eq_true_2 (ui_isLocked _ = _)) by done.
  cbn [andb]. unfold refreshItems_store. by rewrite Hstore.
Qed.

(** X18: update calls listItems exactly when it turns isLocked to false,
    and on the store that the state had before the update: a store that
    the same update sets is not asked for its items. *)
Theorem update_starts_refresh partial s r :
  (update partial s).2 = Some r <->
  ui_isLocked (state s) <> Some false /\
  ui_isLocked (assign (state s) partial) = Some false /\
  ui_store (state s) = Some (Object r).
Proof.
  split; [|intros (Hold & Hnew & Hstore); by apply update_refresh_started].
  unfold update. cbn [snd]. rewrite assign_noState, !isLocked_adjusted.
  set (next := assign (state s) partial). unfold refreshItems_store.
  destruct (bool_decide (ui_isLocked next <> ui_isLocked (state s))) eqn:Hne; [|done].
  destruct (bool_decide (ui_isLocked next = Some false)) eqn:Hfalse; [|done].
  apply bool_decide_eq_true_1 in Hne, Hfalse. cbn [andb].
  intros Hstore. split; [congruence|]. split; [done|].
  by destruct (ui_store (state s)) as [[|r']|]; inversion Hstore.
Qed.

(** An update that only names the items changes no listener and starts no
    listing. *)
Lemma update_itemsOnly (visible : list (Item ItemContent OpenContents)) s :
  update (itemsOnly visible) s =
    ({| state := assign (state s) (itemsOnly visible);
        effects := effects s ++ [StateChanged (itemsOnly visible)] |}, None).
Proof.
  assert (forall (x : UiState'), ui_isLocked (assign x (itemsOnly visible)) = ui_isLocked x)
    as Hlocked by (by intros []).
  assert (forall (x : UiState'), ui_currentUrl (assign x (itemsOnly visible)) = ui_currentUrl x)
    as Hurl by (by intros []).
  assert (forall (x : UiState'), ui_syncer (assign x (itemsOnly visible)) = ui_syncer x)
    as Hsyncer by (by intros []).
  assert (forall (x : UiState'), ui_store (assign x (itemsOnly visible)) = ui_store x)
    as Hstore by (by intros []).
  unfold update. rewrite assign_noState.
  rewrite (bool_decide_eq_false_2 (ui_currentUrl _ <> _)) by (rewrite Hurl; by intros []).
  rewrite (bool_decide_eq_false_2 (ui_isLocked _ <> _)) by (rewrite Hlocked; by intros []).
  cbn [andb].
  rewrite (bool_decide_eq_false_2 (ui_syncer _ <> _)) by (rewrite Hsyncer; by intros []).
  by rewrite (bool_decide_eq_false_2 (ui_store _ <> _)) by (rewrite Hstore; by intros []).
Qed.

Lemma elem_of_visible (items : list (Item ItemContent OpenContents)) item :
  item ∈ List.filter (fun item => isRegularItem item && negb (trashed item)) items <->
  item ∈ items /\ isRegularItem item = true /\ trashed item = false.
Proof.
  rewrite list_elem_of_In, filter_In, <- list_elem_of_In.
  rewrite andb_true_iff, negb_true_iff. tauto.
Qed.

(** X19: when the listing of a refresh resolves, the items of the state
    are the listed items that are regular and not trashed, in the order of
    the listing; no other property of the state changes, no listener is
    added or removed, and no further listing is started. *)
Theorem refresh_shows_visible_items s items :
  let visible := List.filter (fun item => isRegularItem item && negb (trashed item)) items in
  let result := refreshItems_settled isRegularItem (Ok items) s in
  result.2 = None /\
  state result.1 = assign (state s) (itemsOnly visible) /\
  ui_items (state result.1) = Some visible /\
  (forall item, item ∈ visible <->
     item ∈ items /\ isRegularItem item = true /\ trashed item = false) /\
  effects result.1 = effects s ++ [StateChanged (itemsOnly visible)].
Proof.
  cbn zeta. cbn [refreshItems_settled]. rewrite update_itemsOnly. cbn [fst snd state effects].
  split; [done|]. split; [done|]. split; [done|]. split; [|done].
  intros item. apply elem_of_visible.
Qed.

(** X20: unlocking the UI.  An update that turns isLocked to false on a
    state that has a store lists the items of that store.  When the
    listing resolves, the items of the state are the listed items that are
    regular and not trashed, none of them a tombstone; when it is rejected,
    as it is with Locked while the store's key agent has no key, the error
    is logged and the items are what the update left: they are neither
    refreshed nor cleared. *)
Theorem unlock_refreshes_items (world : StoreRef -> State ItemContent OpenContents)
    partial s r :
  ui_store (state s) = Some (Object r) ->
  ui_isLocked (state s) <> Some false ->
  ui_isLocked partial = Some false ->
  let final := updateAndSettle isRegularItem env world partial s in
  ui_isLocked (state final) = Some false /\
  (forall items,
     (listItems env noOptions (world r)).1 = Ok items ->
     ui_items (state final) =
       Some (List.filter (fun item => isRegularItem item && negb (trashed item)) items) /\
     (forall item, item ∈ default [] (ui_items (state final)) ->
        item ∈ items /\ isRegularItem item = true /\ trashed item = false /\
        isTombstone env item = false)) /\
  (forall e,
     (listItems env noOptions (world r)).1 = Err e ->
     state final = assign (state s) partial /\
     last (effects final) = Some (ErrorLogged e)) /\
  (agentKeys (world r) = [] -> (listItems env noOptions (world r)).1 = Err Locked).
Proof.
  intros Hstore Hold Hnew final.
  assert (ui_isLocked (assign (state s) partial) = Some false) as Hnext
    by (cbn; by rewrite Hnew).
  assert ((update partial s).2 = Some r) as Hstart
    by (by apply update_refresh_started).
  assert (state (update partial s).1 = assign (state s) partial) as Hstate by done.
  subst final. unfold updateAndSettle.
  destruct (update partial s) as [s' pending]. cbn [fst snd] in Hstart, Hstate.
  subst pending.
  split; [|split; [|split]].
  - destruct (listItems env noOptions (world r)).1 as [items|e]; cbn [fst].
    + cbn [refreshItems_settled]. rewrite update_itemsOnly. cbn. by rewrite Hstate, Hnext.
    + cbn. by rewrite Hstate.
  - intros items Hitems. rewrite Hitems.
    cbn [refreshItems_settled]. rewrite update_itemsOnly. cbn [fst state].
    split; [done|]. intros item Hitem. cbn in Hitem.
    apply elem_of_visible in Hitem as (? & ? & ?). repeat split; try done.
    destruct (listItems env noOptions (world r)) as [r0 st0] eqn:Hlist.
    cbn in Hitems. subst r0. by eapply listItems_default_no_tombstone.
  - intros e He. rewrite He. cbn. split; [done|]. by rewrite last_snoc.
  - intros Hlocked. by rewrite listItems_locked.
Qed.

Lemma storeListeners_app (r : StoreRef) (l1 l2 : list (UiEvent ItemContent OpenContents
                                                           ItemEditMode SyncProgress)) n :
  storeListeners r (l1 ++ l2) n = storeListeners r l2 (storeListeners r l1 n).
Proof.
  revert n. induction l1 as [|e l1 IH]; intros n; [done|].
  destruct e; cbn [app storeListeners]; apply IH.
Qed.

Lemma update_keeps_listener_count partial s :
  (forall r, storeListeners r (effects s) 0 =
             if bool_decide (ui_store (state s) = Some (Object r)) then 1 else 0) ->
  forall r, storeListeners r (effects (update partial s).1) 0 =
            if bool_decide (ui_store (state (update partial s).1) = Some (Object r))
            then 1 else 0.
Proof.
  intros Hinv r. specialize (Hinv r).
  unfold update. cbn [fst effects state]. rewrite assign_noState.
  set (next := assign (state s) partial).
  assert (forall (b c : bool) (x : UiState'),
            ui_store (if c then set_items [] (set_selectedItem Null
                                                (if b then set_selectedItem Null x else x))
                      else (if b then set_selectedItem Null x else x)) = ui_store x)
    as Hstore by (by intros [] []).
  assert (forall (b c : bool) (x : UiState'),
            ui_syncer (if c then set_items [] (set_selectedItem Null
                                                 (if b then set_selectedItem Null x else x))
                       else (if b then set_selectedItem Null x else x)) = ui_syncer x)
    as Hsyncer by (by intros [] []).
  rewrite !Hstore, !Hsyncer. rewrite !storeListeners_app, Hinv.
  set (n := if bool_decide (ui_store (state s) = Some (Object r)) then 1 else 0).
  assert (storeListeners r
            (if bool_decide (ui_syncer next <> ui_syncer (state s))
             then match truthyObject (ui_syncer (state s)) with
                  | Some r0 => [SyncerIgnore r0] | None => [] end ++
                  match truthyObject (ui_syncer next) with
                  | Some r0 => [SyncerListen r0] | None => [] end
             else []) n = n) as ->.
  { destruct (bool_decide (ui_syncer next <> ui_syncer (state s))); [|done].
    by destruct (truthyObject (ui_syncer (state s))), (truthyObject (ui_syncer next)). }
  cbn [storeListeners]. subst n.
  destruct (decide (ui_store next <> ui_store (state s))) as [Hchanged|Hchanged];
    [rewrite (bool_decide_eq_true_2 _ Hchanged)|rewrite (bool_decide_eq_false_2 _ Hchanged)].
  - rewrite storeListeners_app.
    assert (storeListeners r
              match truthyObject (ui_store (state s)) with
              | Some r0 => [StoreIgnore r0] | None => [] end
              (if bool_decide (ui_store (state s) = Some (Object r)) then 1 else 0) = 0)
      as ->.
    { destruct (ui_store (state s)) as [[|a]|]; cbn; try (by case_bool_decide).
      destruct (Nat.eqb_spec a r) as [->|Hne]; [done|].
      rewrite bool_decide_eq_false_2; [done|]. by intros [= ->]. }
    destruct (ui_store next) as [[|b]|]; cbn; try (by case_bool_decide).
    destruct (Nat.eqb_spec b r) as [->|Hne].
    + by rewrite bool_decide_eq_true_2.
    + rewrite bool_decide_eq_false_2; [done|]. by intros [= ->].
  - apply dec_stable in Hchanged. cbn [storeListeners]. by rewrite Hchanged.
Qed.

(** X21: the UI store listens to the store of its state, once, and to no
    other: after any sequence of updates of a new UI store, it has one
    listener on the onItemUpdated stream of the store that the state holds
    and none on any store that it held before. *)
Theorem store_listener_invariant (editItem : ItemEditMode) (updates : list UiState') r :
  let s := foldl (fun s partial => (update partial s).1) (newItemsStore editItem) updates in
  storeListeners r (effects s) 0 =
    if bool_decide (ui_store (state s) = Some (Object r)) then 1 else 0.
Proof.
  cbn zeta. revert r.
  induction updates as [|partial updates IH] using rev_ind; intros r; [done|].
  rewrite foldl_app. cbn [foldl]. by apply update_keeps_listener_count.
Qed.

End ItemsStoreProperties.


(** * The test doubles satisfy the assumptions *)

Lemma posOfBits_bitsOfPos p : posOfBits (bitsOfPos p) = Some p.
Proof. induction p as [p IH|p IH|]; cbn; by rewrite ?IH. Qed.

Lemma test_index_roundtrip m :
  parseIndex testEnv (stringifyIndex testEnv m) = Ok (Some m).
Proof.
  cbn [parseIndex stringifyIndex testEnv]. unfold testParseIndex, testStringifyIndex.
  rewrite posOfBits_bitsOfPos. cbn [mbind option_bind]. by rewrite decode_encode.
Qed.

Lemma test_crypto_transparent k text encrypted :
  agentEncrypt testEnv k text = Ok encrypted -> agentDecrypt testEnv k encrypted = Ok text.
Proof. cbn. congruence. Qed.

Lemma test_ciphertext_truthy k m encrypted :
  agentEncrypt testEnv k (stringifyIndex testEnv m) = Ok encrypted ->
  truthyString encrypted = true.
Proof. cbn. by intros [= <-]. Qed.

Lemma savedState_index : storedIndex testEnv "key1" savedState = Ok savedIndex.
Proof. vm_compute. reflexivity. Qed.

Lemma savedState_keys : agentKeys savedState = [("key1", "hunter2")].
Proof. vm_compute. reflexivity. Qed.

Lemma lockedState_persistedKeys :
  persistedKeys lockedState = [{| identifier := "k1"; keyData := "hunter2" |}].
Proof. vm_compute. reflexivity. Qed.

(** * Concrete runs *)




(** unlock with no persisted key, with a wrong password and with the
    right one. *)
Lemma unlock_outcomes_witness :
  unlock testEnv "x" emptyState = (Err NoKeys, emptyState) /\
  unlock testEnv "wrong" lockedState = (Err InvalidPassword, lockedState) /\
  exists st',
    unlock testEnv "hunter2" lockedState = (Ok tt, st') /\
    agentKeys st' = [("k1", "hunter2")] /\
    trace st' = [AgentAddKey "k1"; PublishUnlock].
Proof.
  pose proof lockedState_persistedKeys as Hkeys.
  split; [|split].
  - destruct (unlock_outcomes testEnv emptyState "x") as (Hnone & _ & _).
    apply Hnone. vm_compute. reflexivity.
  - destruct (unlock_outcomes testEnv lockedState "wrong") as (_ & Hwrong & _).
    apply Hwrong.
    + intros Hnil. by rewrite Hkeys in Hnil.
    + rewrite Hkeys. reflexivity.
  - destruct (unlock_outcomes testEnv lockedState "hunter2") as (_ & _ & Hunlock).
    destruct (Hunlock [{| id := "k1"; key := "hunter2" |}])
      as (st' & Hrun & Hagent & _ & Htrace & _).
    + intros Hnil. by rewrite Hkeys in Hnil.
    + rewrite Hkeys. reflexivity.
    + exists st'. split; [exact Hrun|]. rewrite Hagent, Htrace.
      split; vm_compute; reflexivity.
Defined.

(** The operations on a locked store, and the key of an unlocked one. *)
Lemma locked_or_first_key_witness :
  listItems testEnv noOptions emptyState = (Err Locked, emptyState) /\
  saveItem testEnv bank emptyState = (Err Locked, emptyState) /\
  getContent testEnv bank emptyState = (Err Locked, emptyState) /\
  updateIndex testEnv [bank] emptyState = (Err Locked, emptyState) /\
  overviewKey unlockedState = (Ok "key1", unlockedState).
Proof.
  destruct (locked_or_first_key testEnv emptyState) as [Hlocked _].
  destruct (Hlocked eq_refl noOptions bank [bank]) as (Hlist & Hsave & Hget & Hflush).
  destruct (locked_or_first_key testEnv unlockedState) as [_ Hfirst].
  destruct (Hfirst "key1" "hunter2" [] eq_refl) as (Hkey & _).
  repeat split; assumption.
Defined.

(** getContent before and after the content of [bank] was saved. *)
Lemma getContent_absent_or_present_run :
  getContent testEnv bank unlockedState = (Err TypeError, unlockedState) /\
  getContent testEnv bank savedState = (Ok "Bank", savedState).
Proof.
  split.
  - by apply (getContent_absent_or_present testEnv unlockedState bank "key1" "hunter2" []).
  - destruct (getContent_absent_or_present testEnv savedState bank "key1" "hunter2" []
                savedState_keys) as [_ Hpresent].
    apply (Hpresent {| data := "Bank" |}). vm_compute. reflexivity.
Defined.

(** C6: getContent on an unlocked store that has no entry under
    "content/b1".  The entry is read as undefined and its [data] is read
    without a check, so the rejection is the runtime's TypeError and not a
    NotFound error, which loadItem raises for an item that is missing. *)
Lemma getContent_absent_is_TypeError :
  agentKeys unlockedState = [("key1", "hunter2")] /\
  itemStore unlockedState !! contentKey (uuid bank) = None /\
  getContent testEnv bank unlockedState = (Err TypeError, unlockedState) /\
  (Err TypeError : Result string) <> Err (NotFound (uuid bank)).
Proof. repeat split; try reflexivity. discriminate. Qed.

(** Listing an unlocked store that has no index. *)
Lemma listItems_absent_index_witness :
  listItems testEnv noOptions unlockedState = (Ok [], unlockedState) /\
  listItems testEnv withTombstones unlockedState = (Ok [], unlockedState).
Proof.
  split; by apply (listItems_absent_index testEnv unlockedState _ "key1" "hunter2" []).
Defined.

(** [bank] is saved and its content read back. *)
Lemma saveItem_getContent_roundtrip_witness :
  saveItem testEnv bank unlockedState = (Ok tt, (saveItem testEnv bank unlockedState).2) /\
  getContent testEnv (testUpdateTimestamps bank) (saveItem testEnv bank unlockedState).2 =
    (Ok "Bank", (saveItem testEnv bank unlockedState).2).
Proof.
  assert (saveItem testEnv bank unlockedState =
          (Ok tt, (saveItem testEnv bank unlockedState).2)) as Hsave
    by (vm_compute; reflexivity).
  split; [exact Hsave|].
  exact (saveItem_getContent_roundtrip testEnv unlockedState _ bank "Bank"
           test_crypto_transparent eq_refl eq_refl Hsave).
Defined.

(** loadItem on [savedState]: the tombstone, the regular item, and a uuid
    that the index does not hold. *)
Lemma loadItem_tombstone_witness :
  savedIndex !! "o1" = Some (overviewFromItem (testUpdateTimestamps old)) /\
  loadItem testEnv "o1" savedState = (Err (NotFound "o1"), savedState) /\
  loadItem testEnv "b1" savedState =
    (Ok (itemFromOverview "b1" (overviewFromItem (testUpdateTimestamps bank))), savedState) /\
  loadItem testEnv "n1" savedState = (Err (NotFound "n1"), savedState).
Proof.
  split; [vm_compute; reflexivity|]. split; [|split].
  - etrans; [exact (loadItem_tombstone testEnv savedState "o1" "key1" "hunter2" []
                      savedIndex savedState_keys savedState_index)|].
    vm_compute. reflexivity.
  - etrans; [exact (loadItem_tombstone testEnv savedState "b1" "key1" "hunter2" []
                      savedIndex savedState_keys savedState_index)|].
    vm_compute. reflexivity.
  - etrans; [exact (loadItem_tombstone testEnv savedState "n1" "key1" "hunter2" []
                      savedIndex savedState_keys savedState_index)|].
    vm_compute. reflexivity.
Defined.






(** ** Concrete runs of the further properties *)

Lemma test_updateIndex_flushed st batch m :
  agentKeys st = [("key1", "hunter2")] ->
  storedIndex testEnv "key1" st = Ok m ->
  writeFaults st = ∅ ->
  updateIndex testEnv batch st = (Ok tt, flushed m batch st) /\
  agentKeys (flushed m batch st) = [("key1", "hunter2")] /\
  storedIndex testEnv "key1" (flushed m batch st) = Ok (overlay m batch) /\
  writeFaults (flushed m batch st) = ∅.
Proof.
  intros Hkeys Hm Hfaults. split; [|split; [done|split; [|done]]].
  - rewrite (updateIndex_unlocked _ _ _ _ _ _ Hkeys), Hm.
    cbn [agentEncrypt stringifyIndex testEnv].
    apply itemStore_set_ok. rewrite Hfaults. apply not_elem_of_empty.
  - by apply (storedIndex_written testEnv test_crypto_transparent test_ciphertext_truthy
                test_index_roundtrip).
Qed.

Lemma savedState_faults : writeFaults savedState = ∅.
Proof. vm_compute. reflexivity. Qed.

Lemma flushedState_flush :
  updateIndex testEnv [note; bank] savedState = (Ok tt, flushedState).
Proof.
  apply (test_updateIndex_flushed _ _ _ savedState_keys savedState_index savedState_faults).
Qed.

Lemma bank_prepared st :
  agentKeys st = [("key1", "hunter2")] ->
  saveItem_prepare testEnv bank st = (Ok (testUpdateTimestamps bank, "Bank"), st).
Proof.
  intros Hkeys. by rewrite (saveItem_prepare_unlocked _ _ _ _ _ _ Hkeys).
Qed.


(** The listing of [savedState], tombstones included. *)
Lemma listItems_shape_witness :
  listItems testEnv withTombstones savedState =
    (Ok (itemsOfIndex testEnv withTombstones savedIndex), savedState) /\
  length (itemsOfIndex testEnv withTombstones savedIndex) = 2 /\
  NoDup (uuid <$> itemsOfIndex testEnv withTombstones savedIndex) /\
  Forall (fun item => content item = None) (itemsOfIndex testEnv withTombstones savedIndex).
Proof.
  assert (listItems testEnv withTombstones savedState =
          (Ok (itemsOfIndex testEnv withTombstones savedIndex), savedState)) as Hlist
    by (vm_compute; reflexivity).
  destruct (listItems_shape testEnv savedState withTombstones _ _ Hlist)
    as (_ & Hnodup & Hcontent).
  split; [exact Hlist|]. split; [vm_compute; reflexivity|]. split; [exact Hnodup|].
  apply Forall_forall. exact Hcontent.
Defined.

(** loadItem on [savedState] finds [bank]. *)
Lemma loadItem_result_witness :
  (loadItem testEnv "b1" savedState).1 =
    Ok (itemFromOverview "b1" (overviewFromItem (testUpdateTimestamps bank))) /\
  uuid (itemFromOverview "b1" (overviewFromItem (testUpdateTimestamps bank))
        : Item string unit) = "b1" /\
  isTombstone testEnv
    (itemFromOverview "b1" (overviewFromItem (testUpdateTimestamps bank))) = false.
Proof.
  assert ((loadItem testEnv "b1" savedState).1 =
          Ok (itemFromOverview "b1" (overviewFromItem (testUpdateTimestamps bank))))
    as Hload by (vm_compute; reflexivity).
  destruct (loadItem_result testEnv savedState "b1") as [_ Hfound].
  destruct (Hfound _ Hload) as (Huuid & Hlive & _).
  split; [exact Hload|]. split; [exact Huuid|exact Hlive].
Defined.

(** An index update that the database rejects, and one that resolves. *)
Lemma updateIndex_all_or_nothing_witness :
  (updateIndex testEnv [bank] indexFaultState).2 = indexFaultState /\
  trace (updateIndex testEnv [note; bank] savedState).2 =
    trace savedState ++ [ItemStoreSet indexKey] /\
  itemStore (updateIndex testEnv [note; bank] savedState).2 !! contentKey "b1" =
    itemStore savedState !! contentKey "b1".
Proof.
  destruct (updateIndex_all_or_nothing testEnv indexFaultState [bank]) as [Hrejected _].
  destruct (updateIndex_all_or_nothing testEnv savedState [note; bank]) as [_ Hresolved].
  split; [apply Hrejected; vm_compute; reflexivity|].
  destruct Hresolved as (_ & Hothers & _ & _ & _ & Htrace);
    [by rewrite flushedState_flush|].
  split; [exact Htrace|]. apply Hothers, contentKey_not_index.
Defined.



(** [note] and [bank] flushed one after the other, and together. *)
Lemma updateIndex_sequence_is_batch_witness :
  updateIndex testEnv [bank] (flushed savedIndex [note] savedState) =
    (Ok tt, flushed (overlay savedIndex [note]) [bank] (flushed savedIndex [note] savedState)) /\
  (listItems testEnv noOptions
     (flushed (overlay savedIndex [note]) [bank] (flushed savedIndex [note] savedState))).1 =
  (listItems testEnv noOptions flushedState).1.
Proof.
  destruct (test_updateIndex_flushed savedState [note] savedIndex
              savedState_keys savedState_index savedState_faults)
    as (Hnote & Hkeys & Hindex & Hfaults).
  destruct (test_updateIndex_flushed _ [bank] _ Hkeys Hindex Hfaults) as (Hbank & _).
  split; [exact Hbank|].
  exact (updateIndex_sequence_is_batch testEnv test_crypto_transparent test_ciphertext_truthy
           test_index_roundtrip savedState [note] [bank] _ _ flushedState noOptions
           Hnote Hbank flushedState_flush).
Defined.


(** A save under a key agent that rejects the encryption. *)
Lemma saveItem_encrypt_failure_witness :
  saveItem failingEncryptEnv bank unlockedState = (Err CryptoFailure, unlockedState).
Proof.
  apply (saveItem_encrypt_failure failingEncryptEnv unlockedState bank "key1" "hunter2" []
           "Bank" CryptoFailure); reflexivity.
Defined.

(** The save of [bank] on a database that rejects the index. *)
Lemma saveItem_index_write_rejected_witness :
  isOk (saveItem testEnv bank indexFaultState).1 = false /\
  getContent testEnv (testUpdateTimestamps bank) (saveItem testEnv bank indexFaultState).2 =
    (Ok "Bank", (saveItem testEnv bank indexFaultState).2) /\
  (listItems testEnv noOptions (saveItem testEnv bank indexFaultState).2).1 =
    (listItems testEnv noOptions indexFaultState).1.
Proof.
  destruct (saveItem_index_write_rejected testEnv indexFaultState bank
              (testUpdateTimestamps bank) "Bank" "Bank")
    as (Hrejected & Hstate & Hcontent & Hlist).
  - exact test_crypto_transparent.
  - reflexivity.
  - reflexivity.
  - apply bank_prepared. reflexivity.
  - change (indexKey ∈ ({[ indexKey ]} : gset string)). by apply elem_of_singleton_2.
  - change (contentKey (uuid (testUpdateTimestamps bank)) ∉ ({[ indexKey ]} : gset string)).
    intros Hin%elem_of_singleton. exact (contentKey_not_index _ Hin).
  - split; [exact Hrejected|]. rewrite Hstate. split; [exact Hcontent|apply Hlist].
Defined.



(** Two keys and a hint are saved on an empty database. *)
Lemma saveKeys_then_listKeys_witness :
  exists st',
    saveKeys twoKeys "a hunter" emptyState = (Ok tt, st') /\
    Forall (fun k => k ∈ persistedKeys st') twoKeys /\
    passwordHint st' = (Ok (Some "a hunter"), st') /\
    agentKeys st' = [].
Proof.
  destruct (saveKeys_then_listKeys emptyState twoKeys "a hunter")
    as (st' & Hsave & Hlisted & _ & _ & Hhint & _ & Hagent).
  - apply (bool_decide_unpack _). vm_compute. reflexivity.
  - exists st'. split; [exact Hsave|]. split; [by apply Forall_forall|].
    split; [exact Hhint|exact Hagent].
Defined.

(** [savedState] is cleared: its key agent still holds the key. *)
Lemma clear_forgets_database_witness :
  unlock testEnv "hunter2" (clear lockedState).2 = (Err NoKeys, (clear lockedState).2) /\
  listItems testEnv noOptions (clear savedState).2 = (Ok [], (clear savedState).2) /\
  loadItem testEnv "b1" (clear savedState).2 = (Err (NotFound "b1"), (clear savedState).2) /\
  getContent testEnv bank (clear savedState).2 = (Err TypeError, (clear savedState).2).
Proof.
  destruct (clear_forgets_database testEnv lockedState) as (_ & _ & _ & Hunlock & _).
  destruct (clear_forgets_database testEnv savedState)
    as (_ & _ & _ & _ & _ & _ & _ & Hunlocked).
  destruct (Hunlocked "key1" "hunter2" [] savedState_keys) as (Hlist & Hload & Hcontent).
  split; [apply Hunlock|]. split; [apply Hlist|]. split; [apply Hload|apply Hcontent].
Defined.

(** [lockedState] is unlocked with its password. *)
Lemma unlock_then_unlocked_witness :
  exists st' k,
    unlock testEnv "hunter2" lockedState = (Ok tt, st') /\
    overviewKey st' = (Ok k, st') /\
    itemStore st' = itemStore lockedState.
Proof.
  destruct (unlock_then_unlocked testEnv lockedState "hunter2"
              [{| id := "k1"; key := "hunter2" |}])
    as (st' & k & Hunlock & Hkey & Hitems & _).
  - rewrite lockedState_persistedKeys. discriminate.
  - rewrite lockedState_persistedKeys. reflexivity.
  - discriminate.
  - exists st', k. split; [exact Hunlock|]. split; [exact Hkey|exact Hitems].
Defined.

(** An update of the current URL on a UI store that holds a store. *)
Lemma update_stores_given_properties_witness :
  ui_currentUrl (state (update uiSetUrl uiWithStore).1) = Some "https://example.com" /\
  ui_selectedItem (state (update uiSetUrl uiWithStore).1) = ui_selectedItem (state uiWithStore) /\
  ui_items (state (update uiSetUrl uiWithStore).1) = ui_items (state uiWithStore).
Proof.
  destruct (update_stores_given_properties uiSetUrl uiWithStore)
    as (Hstate & Hselected & Hitems & _).
  split; [by rewrite Hstate|]. split; [exact (Hselected eq_refl)|exact (Hitems eq_refl)].
Defined.

(** Unlocking asks the store that the state held; a store that the same
    update sets is not asked. *)
Lemma update_starts_refresh_witness :
  (update uiUnlock uiWithStore).2 = Some 0 /\
  (update uiSetOtherStoreAndUnlock uiWithStore).2 = Some 0 /\
  (update uiSetOtherStoreAndUnlock uiWithStore).2 <> Some 1.
Proof.
  destruct (update_starts_refresh uiUnlock uiWithStore 0) as [_ Hstarts].
  destruct (update_starts_refresh uiSetOtherStoreAndUnlock uiWithStore 0) as [_ Hstarts0].
  destruct (update_starts_refresh uiSetOtherStoreAndUnlock uiWithStore 1) as [Hother _].
  split; [|split].
  - apply Hstarts. split; [discriminate|]. split; vm_compute; reflexivity.
  - apply Hstarts0. split; [discriminate|]. split; vm_compute; reflexivity.
  - intros Hasked. destruct (Hother Hasked) as (_ & _ & Hstore). discriminate Hstore.
Defined.

(** The UI is unlocked over [savedState], and over a locked store. *)
Lemma unlock_refreshes_items_witness :
  ui_isLocked (state (updateAndSettle allRegular testEnv savedWorld uiUnlock uiWithStore)) =
    Some false /\
  ui_items (state (updateAndSettle allRegular testEnv savedWorld uiUnlock uiWithStore)) =
    Some [itemFromOverview "b1" (overviewFromItem (testUpdateTimestamps bank))] /\
  ui_items (state (updateAndSettle allRegular testEnv lockedWorld uiUnlock uiWithStore)) =
    Some [] /\
  last (effects (updateAndSettle allRegular testEnv lockedWorld uiUnlock uiWithStore)) =
    Some (ErrorLogged Locked).
Proof.
  destruct (unlock_refreshes_items allRegular testEnv savedWorld uiUnlock uiWithStore 0)
    as (Hunlocked & Hlisted & _); [vm_compute; reflexivity|discriminate|reflexivity|].
  destruct (unlock_refreshes_items allRegular testEnv lockedWorld uiUnlock uiWithStore 0)
    as (_ & _ & Hrejected & Hlocked); [vm_compute; reflexivity|discriminate|reflexivity|].
  destruct (Hlisted [itemFromOverview "b1" (overviewFromItem (testUpdateTimestamps bank))])
    as [Hitems _]; [vm_compute; reflexivity|].
  destruct (Hrejected Locked (Hlocked eq_refl)) as [Hstate Hlogged].
  split; [exact Hunlocked|]. split; [|split].
  - etrans; [exact Hitems|]. vm_compute. reflexivity.
  - rewrite Hstate. vm_compute. reflexivity.
  - exact Hlogged.
Defined.
